(** * bumpversion: the version model of [bumpversion/__init__.py]

    A shallow embedding of the classes [VersionPart] and [Version] and of the
    library calls they make ([re], [str.format], [string.Formatter], [dict],
    [set]), followed by the properties of parsing, bumping and serializing.

    Conventions.
    - A Python text value is a [string]; [None] is an [option].
    - A [dict] whose iteration order is observed ([Version._parsed], the
      result of [groupdict()]) is an association list with unique keys; the
      order of the list is the iteration order of the dict.  A [dict] that is
      only read by key ([Version.context]) is a [gmap]; a [set] is a [gset].
    - A method of [Version] is a computation in the monad [M]: it receives the
      object, and returns the object as the method leaves it together with
      the value returned or the exception raised.
    - [warnings.warn] has no effect on the object and is not modelled.
    - The code is written for Python 2 (it reads [e.message]); the library
      calls are followed as CPython 2.7 makes them.  A call that leaves what
      the development follows of [str.format] and of its scanner ends with
      [Unmodelled], and no property is stated of such a call beyond what
      holds of every call. *)

From stdpp Require Import base option list gmap strings pretty.
From Stdlib Require Import Ascii String NArith Lia.

(** ** Text *)

Module Text.

(** The line feed. *)
Definition newline : ascii := ascii_of_N 10.

(** [\d] of a pattern compiled without [re.UNICODE]: the digits [0-9]. *)
Definition isdigit (c : ascii) : bool :=
  ((48 <=? N_of_ascii c) && (N_of_ascii c <=? 57))%N.

Definition notdigit (c : ascii) : bool := negb (isdigit c).

Definition notnewline (c : ascii) : bool := negb (Ascii.eqb c newline).

(** The set [[a-z0-9]]. *)
Definition islower_or_digit (c : ascii) : bool :=
  isdigit c || ((97 <=? N_of_ascii c) && (N_of_ascii c <=? 122))%N.

Definition digit_value (c : ascii) : N := (N_of_ascii c - 48)%N.

(** [int(s)] for a text [s] made of decimal digits. *)
Definition int (s : string) : N :=
  (fix go (acc : N) (s : string) : N :=
     match s with
     | EmptyString => acc
     | String c s' => go (10 * acc + digit_value c)%N s'
     end) 0%N s.

(** [str(n)] for a natural number [n]. *)
Definition str (n : N) : string := pretty n.

(** [all p s]: every character of [s] satisfies [p]. *)
Fixpoint all (p : ascii -> bool) (s : string) : bool :=
  match s with
  | EmptyString => true
  | String c s' => p c && all p s'
  end.

Definition is_empty (s : string) : bool :=
  match s with EmptyString => true | _ => false end.

(** The longest prefix of [s] whose characters satisfy [p], and what follows
    it. *)
Fixpoint take_while (p : ascii -> bool) (s : string) : string :=
  match s with
  | EmptyString => EmptyString
  | String c s' => if p c then String c (take_while p s') else EmptyString
  end.

Fixpoint drop_while (p : ascii -> bool) (s : string) : string :=
  match s with
  | EmptyString => EmptyString
  | String c s' => if p c then drop_while p s' else s
  end.

End Text.

(** ** The module [re]

    A compiled pattern is the syntax tree of the expression, the number of
    its groups and the [groupindex] dictionary (group name to group number).
    The fragment covers character sets, concatenation, alternation, the
    greedy [*] (hence [+] and [?]) and numbered groups; matching is
    backtracking with the priorities of [re]: the first alternative before
    the second, one more iteration before none. *)

Module re.

Inductive regex : Type :=
| Eps
| Chars (p : ascii -> bool)
| Cat (r1 r2 : regex)
| Alt (r1 r2 : regex)
| Star (r : regex)
| Group (n : nat) (r : regex).

Definition Plus (r : regex) : regex := Cat r (Star r).

(** [\d], [[^\d]], [.] (without [re.DOTALL]) and a literal character. *)
Definition digit : regex := Chars Text.isdigit.
Definition nondigit : regex := Chars Text.notdigit.
Definition dot : regex := Chars Text.notnewline.
Definition lit (c : ascii) : regex := Chars (Ascii.eqb c).

(** The text of each group that took part in the match so far, the most
    recent binding of a group first. *)
Abbreviation captures := (list (nat * string)).

(** One way to match at the start of a subject: the text matched, the rest of
    the subject and the groups bound. *)
Abbreviation attempt := (string * string * captures)%type.

(** [star_loop step n s g]: the ways to match zero or more iterations of
    [step], the longest first.  An iteration that matches no text ends the
    repetition; [n] bounds the number of iterations and is taken above the
    length of the subject. *)
Fixpoint star_loop (step : string -> captures -> list attempt)
    (n : nat) (s : string) (g : captures) : list attempt :=
  match n with
  | O => [(EmptyString, s, g)]
  | S n' =>
      flat_map
        (fun '(m1, s1, g1) =>
           if Text.is_empty m1 then []
           else map (fun '(m2, s2, g2) => (m1 +:+ m2, s2, g2))
                    (star_loop step n' s1 g1))
        (step s g)
      ++ [(EmptyString, s, g)]
  end.

(** [rmatch r s g]: all the ways to match [r] at the start of [s], in the
    order in which a backtracking matcher tries them. *)
Fixpoint rmatch (r : regex) (s : string) (g : captures) : list attempt :=
  match r with
  | Eps => [(EmptyString, s, g)]
  | Chars p =>
      match s with
      | String c s' => if p c then [(String c EmptyString, s', g)] else []
      | EmptyString => []
      end
  | Cat r1 r2 =>
      flat_map
        (fun '(m1, s1, g1) =>
           map (fun '(m2, s2, g2) => (m1 +:+ m2, s2, g2)) (rmatch r2 s1 g1))
        (rmatch r1 s g)
  | Alt r1 r2 => rmatch r1 s g ++ rmatch r2 s g
  | Star r1 => star_loop (rmatch r1) (S (String.length s)) s g
  | Group n r1 =>
      map (fun '(m1, s1, g1) => (m1, s1, (n, m1) :: g1)) (rmatch r1 s g)
  end.

Record Pattern : Type := {
  ast : regex;
  ngroups : nat;
  groupindex : list (string * nat)
}.

(** A match object: the groups that took part in the match. *)
Record Match : Type := { bound : captures }.

(** [m.group(n)]: the text of group [n], [None] when the group did not take
    part in the match. *)
Definition group (m : Match) (n : nat) : option string :=
  snd <$> List.find (fun b => Nat.eqb (fst b) n) (bound m).

(** [pattern.search(s)]: the first way to match at the leftmost position of
    [s] where the pattern matches at all. *)
Fixpoint search_ast (r : regex) (s : string) : option Match :=
  match rmatch r s [] with
  | (_, _, g) :: _ => Some {| bound := g |}
  | [] =>
      match s with
      | EmptyString => None
      | String _ s' => search_ast r s'
      end
  end.

Definition search (p : Pattern) (s : string) : option Match :=
  search_ast (ast p) s.

(** [m.groups()]: the groups [1 .. ngroups] of the pattern. *)
Definition groups (p : Pattern) (m : Match) : list (option string) :=
  map (group m) (seq 1 (ngroups p)).

(** [m.groupdict()]: every named group of the pattern with its text, [None]
    for a group that did not take part in the match. *)
Definition groupdict (p : Pattern) (m : Match) : list (string * option string) :=
  map (fun '(name, n) => (name, group m n)) (groupindex p).

End re.

(** ** Exceptions and results *)

Inductive exn : Type :=
| KeyError (key : string)
    (** raised by [str.format] for a name that is not a keyword argument, and
        raised again by [_serialize] as "Did not find key ..." *)
| KeyError_no_suitable_format
    (** [KeyError("Did not find suitable serialization format")] *)
| IncompleteVersionRepresenationException
| AttributeError
| TypeError
| ValueError
| IndexError
| Unmodelled
    (** not an exception of the code: the call left what the model follows
        of the scanner or of [str.format]; no handler catches it, so a
        computation that meets it ends with it *).

Inductive result (A : Type) : Type :=
| Return (a : A)
| Raise (e : exn).
Arguments Return {A} a.
Arguments Raise {A} e.

(** A generator: the values it yields, ending normally or by raising. *)
Inductive gen (A : Type) : Type :=
| Stop
| Yield (a : A) (rest : gen A)
| Throw (e : exn).
Arguments Stop {A}.
Arguments Yield {A} a rest.
Arguments Throw {A} e.

Fixpoint gen_list {A : Type} (l : list A) : gen A :=
  match l with
  | [] => Stop
  | a :: l' => Yield a (gen_list l')
  end.

(** The values yielded before the generator ends. *)
Fixpoint yielded {A : Type} (g : gen A) : list A :=
  match g with
  | Yield a g' => a :: yielded g'
  | _ => []
  end.

(** The exception that ends the generator, if one does. *)
Fixpoint thrown {A : Type} (g : gen A) : option exn :=
  match g with
  | Stop => None
  | Yield _ g' => thrown g'
  | Throw e => Some e
  end.

Fixpoint gen_map {A B : Type} (f : A -> B) (g : gen A) : gen B :=
  match g with
  | Stop => Stop
  | Yield a g' => Yield (f a) (gen_map f g')
  | Throw e => Throw e
  end.

(** ** A [dict] in iteration order *)

Module odict.

Section Odict.
Context {V : Type}.

(** [d[k]], [None] standing for the [KeyError]. *)
Fixpoint get (d : list (string * V)) (k : string) : option V :=
  match d with
  | [] => None
  | (k', v) :: d' => if String.eqb k k' then Some v else get d' k
  end.

(** [k in d] *)
Definition contains (d : list (string * V)) (k : string) : bool :=
  match get d k with Some _ => true | None => false end.

(** [d[k] = v]: an existing key keeps its place, a new key goes last. *)
Fixpoint set (d : list (string * V)) (k : string) (v : V) : list (string * V) :=
  match d with
  | [] => [(k, v)]
  | (k', v') :: d' =>
      if String.eqb k k' then (k, v) :: d' else (k', v') :: set d' k v
  end.

Definition keys (d : list (string * V)) : list string := map fst d.

End Odict.

End odict.

(** ** The class [VersionPart] *)

Module VersionPart.

(** [_value] is the text of a group, or [None] for a group that did not take
    part in the match. *)
Record t : Type := { _value : option string }.

(** [FIRST_NUMERIC]: three groups in a row, [[^\d]*], [\d+] and [.*]. *)
Definition FIRST_NUMERIC : re.Pattern :=
  {| re.ast :=
       re.Cat (re.Group 1 (re.Star re.nondigit))
         (re.Cat (re.Group 2 (re.Plus re.digit))
                 (re.Group 3 (re.Star re.dot)));
     re.ngroups := 3;
     re.groupindex := [] |}.

(** [self._value or "0"]: [None] and the empty text are false. *)
Definition value (self : t) : string :=
  match _value self with
  | Some s => if Text.is_empty s then "0" else s
  | None => "0"
  end.

(** [bump]: [search] returning [None] makes [.groups()] an
    [AttributeError]. *)
Definition bump (self : t) : result t :=
  match re.search FIRST_NUMERIC (value self) with
  | None => Raise AttributeError
  | Some m =>
      match re.groups FIRST_NUMERIC m with
      | [Some part_prefix; Some numeric_version; Some part_suffix] =>
          let bumped_numeric := Text.str (Text.int numeric_version + 1)%N in
          Return {| _value := Some (part_prefix +:+ bumped_numeric +:+ part_suffix) |}
      | _ => Raise TypeError
      end
  end.

Definition is_optional (self : t) : bool := String.eqb (value self) "0".

Definition __format__ (self : t) (format_spec : string) : string := value self.

Definition __repr__ (self : t) : string :=
  "<bumpversion.VersionPart:" +:+ value self +:+ ">".

Definition zero (self : t) : t := {| _value := Some "0" |}.

End VersionPart.

(** ** Format strings: [string.Formatter().parse] and [str.format]

    Both walk the format string with the same scanner, the one of CPython
    ([MarkupIterator_next] and [parse_field]): literal text with the escapes
    [{{] and [}}], then a replacement field, whose text is cut at the first
    [:] or [!] into the field name, the conversion and the format
    specification; what follows [!] is checked, and the end of the field is
    found by counting braces.  The scanners of CPython 2.7 and of CPython 3
    agree except on a field whose name holds [{] or a bracket, or whose
    conversion is a brace: there the model ends with [Unmodelled].

    [str.format] is called with keyword arguments only.  The model follows
    it for: the lookup of the first part of the field name among the keyword
    arguments (an empty or numeric first part is an index into no positional
    argument); the conversions [!r] and [!s]; a format specification given
    to a [VersionPart], which ignores it.  Where the field name goes on with
    an attribute or an index lookup, where the format specification holds a
    nested field, and where a text is rendered with a format specification
    that is not empty, the outcome is [Unmodelled]. *)

Module Formatter.

(** A replacement field as the scanner hands it over. *)
Record field : Type := {
  field_name : string;
  conversion : option ascii;
  format_spec : string;
  format_spec_needs_expanding : bool
}.

(** What the scanner is reading. *)
Inductive mode : Type :=
| Literal (lit : string)
    (** literal text *)
| Opened (lit : string)
    (** just after a [{] that followed the literal text *)
| Closed (lit : string)
    (** just after a [}] that followed the literal text *)
| Field (lit : string) (depth : nat) (text : string)
    (** inside a replacement field, [depth] braces deep *).

Definition snoc (s : string) (c : ascii) : string := s +:+ String c EmptyString.

(** The field name ends at the first [:] or [!]. *)
Definition in_name (c : ascii) : bool :=
  negb (Ascii.eqb c ":" || Ascii.eqb c "!").

(** [parse_field], on the text of a field between its braces. *)
Definition parse_field (text : string) : result field :=
  let name := Text.take_while in_name text in
  let needs_expanding := negb (Text.all (fun c => negb (Ascii.eqb c "{")) text) in
  match Text.drop_while in_name text with
  | EmptyString =>
      Return {| field_name := name; conversion := None;
                format_spec := EmptyString;
                format_spec_needs_expanding := needs_expanding |}
  | String c after =>
      if Ascii.eqb c "!" then
        match after with
        | EmptyString =>
            Raise ValueError   (* end of format while looking for conversion *)
        | String c1 after1 =>
            (* the character 0 stands for no conversion *)
            let conv := if (N_of_ascii c1 =? 0)%N then None else Some c1 in
            match after1 with
            | EmptyString =>
                Return {| field_name := name; conversion := conv;
                          format_spec := EmptyString;
                          format_spec_needs_expanding := needs_expanding |}
            | String c2 spec =>
                if Ascii.eqb c2 ":" then
                  Return {| field_name := name; conversion := conv;
                            format_spec := spec;
                            format_spec_needs_expanding := needs_expanding |}
                else Raise ValueError   (* expected ':' after format specifier *)
            end
        end
      else
        Return {| field_name := name; conversion := None;
                  format_spec := after;
                  format_spec_needs_expanding := needs_expanding |}
  end.

(** Where the scanners of CPython 2.7 and 3 part: after the text [text] of a
    field come the character [c] and then [s'], and [c] is
    - a [{] inside the field name, or a bracket there that is not closed
      before the next brace, [:] or [!];
    - or, right after the [!] that ends the field name, a [{], or a [}]
      followed by [}] or [:]. *)
Definition bracket_closes (s' : string) : bool :=
  match
    Text.drop_while
      (fun c => negb (Ascii.eqb c "]" || Ascii.eqb c "{" || Ascii.eqb c "}"
                      || Ascii.eqb c ":" || Ascii.eqb c "!")) s'
  with
  | String c _ => Ascii.eqb c "]"
  | EmptyString => false
  end.

Definition versions_differ (text : string) (c : ascii) (s' : string) : bool :=
  match Text.drop_while in_name text with
  | EmptyString =>
      Ascii.eqb c "{" || (Ascii.eqb c "[" && negb (bracket_closes s'))
  | String c0 EmptyString =>
      Ascii.eqb c0 "!"
      && (Ascii.eqb c "{"
          || (Ascii.eqb c "}"
              && match s' with
                 | String c' _ => Ascii.eqb c' "}" || Ascii.eqb c' ":"
                 | EmptyString => false
                 end))
  | _ => false
  end.

(** One tuple per piece: the literal text and the field that follows it,
    [None] when no field follows. *)
Abbreviation item := (string * option field)%type.

Fixpoint scan (m : mode) (s : string) : gen item :=
  match s with
  | EmptyString =>
      match m with
      | Literal lit => if Text.is_empty lit then Stop else Yield (lit, None) Stop
      | Opened _ => Throw ValueError   (* Single '{' encountered *)
      | Closed _ => Throw ValueError   (* Single '}' encountered *)
      | Field _ _ _ => Throw ValueError   (* unmatched '{' in format *)
      end
  | String c s' =>
      let in_field (lit : string) (depth : nat) (text : string) : gen item :=
        if versions_differ text c s' then Throw Unmodelled
        else if Ascii.eqb c "{" then scan (Field lit (S depth) (snoc text c)) s'
        else if Ascii.eqb c "}" then
          match depth with
          | O =>
              match parse_field text with
              | Return fld => Yield (lit, Some fld) (scan (Literal EmptyString) s')
              | Raise e => Throw e
              end
          | S depth' => scan (Field lit depth' (snoc text c)) s'
          end
        else scan (Field lit depth (snoc text c)) s' in
      match m with
      | Literal lit =>
          if Ascii.eqb c "{" then scan (Opened lit) s'
          else if Ascii.eqb c "}" then scan (Closed lit) s'
          else scan (Literal (snoc lit c)) s'
      | Opened lit =>
          if Ascii.eqb c "{"
          then Yield (snoc lit c, None) (scan (Literal EmptyString) s')
          else in_field lit O EmptyString
      | Closed lit =>
          if Ascii.eqb c "}"
          then Yield (snoc lit c, None) (scan (Literal EmptyString) s')
          else Throw ValueError   (* Single '}' encountered *)
      | Field lit depth text => in_field lit depth text
      end
  end.

(** [Formatter().parse(format_string)]; the tuples of Python also hold the
    format specification and the conversion, here inside the field. *)
Definition parse (format_string : string) : gen item :=
  scan (Literal EmptyString) format_string.

End Formatter.

(** A value passed to [str.format]: a text of the context or a
    [VersionPart]. *)
Inductive object : Type :=
| Str (s : string)
| Part (p : VersionPart.t).

(** *** [repr] and [str] *)

Module builtins.

Definition backslash : ascii := ascii_of_N 92.
Definition double_quote : ascii := ascii_of_N 34.

Definition hex_digit (n : N) : ascii :=
  if (n <? 10)%N then ascii_of_N (48 + n) else ascii_of_N (87 + n).

(** One character inside [repr(s)], for a text [s] of 8-bit characters
    quoted with [quote]. *)
Definition repr_char (quote c : ascii) : string :=
  let n := N_of_ascii c in
  if Ascii.eqb c quote || Ascii.eqb c backslash
  then String backslash (String c EmptyString)
  else if (n =? 9)%N then String backslash "t"
  else if (n =? 10)%N then String backslash "n"
  else if (n =? 13)%N then String backslash "r"
  else if (n <? 32)%N || (127 <=? n)%N
  then String backslash
         (String "x"
            (String (hex_digit (n / 16))
               (String (hex_digit (n mod 16)) EmptyString)))
  else String c EmptyString.

Fixpoint repr_chars (quote : ascii) (s : string) : string :=
  match s with
  | EmptyString => EmptyString
  | String c s' => repr_char quote c +:+ repr_chars quote s'
  end.

Definition holds (c : ascii) (s : string) : bool :=
  negb (Text.all (fun c' => negb (Ascii.eqb c' c)) s).

(** [repr(s)]: single quotes, unless [s] holds one and no double quote. *)
Definition repr_str (s : string) : string :=
  let quote :=
    if holds "'" s && negb (holds double_quote s) then double_quote
    else "'"%char in
  String quote (repr_chars quote s) +:+ String quote EmptyString.

(** [repr(obj)] and [str(obj)]; a [VersionPart] has no [__str__]. *)
Definition repr (obj : object) : string :=
  match obj with
  | Str s => repr_str s
  | Part p => VersionPart.__repr__ p
  end.

Definition str (obj : object) : string :=
  match obj with
  | Str s => s
  | Part p => VersionPart.__repr__ p
  end.

End builtins.

(** *** One replacement field *)

(** The first part of a field name ends at the first [.] or bracket. *)
Definition in_first (c : ascii) : bool :=
  negb (Ascii.eqb c "." || Ascii.eqb c "[").

(** [get_integer]: [None] for a text that is no index.  The digits are read
    one by one into a [Py_ssize_t], which holds 31 or 63 bits. *)
Definition get_integer (s : string) : result (option N) :=
  let n := Text.int (Text.take_while Text.isdigit s) in
  if (n <? 2 ^ 31)%N then
    Return (if Text.is_empty s
               || negb (Text.is_empty (Text.drop_while Text.isdigit s))
            then None else Some n)
  else if (2 ^ 63 <=? n)%N then
    Raise ValueError   (* Too many decimal digits in format string *)
  else Raise Unmodelled.

(** [get_field_object]: there is no positional argument. *)
Definition get_field_object (name : string) (kwargs : gmap string object)
  : result object :=
  let first := Text.take_while in_first name in
  let rest := Text.drop_while in_first name in
  match get_integer first with
  | Raise e => Raise e
  | Return (Some _) => Raise IndexError
  | Return None =>
      if Text.is_empty first then Raise IndexError   (* automatic numbering *)
      else
        match kwargs !! first with
        | None => Raise (KeyError first)
        | Some obj =>
            if Text.is_empty rest then Return obj else Raise Unmodelled
        end
  end.

(** [do_conversion]; [!a] is a conversion of CPython 3 only. *)
Definition do_conversion (obj : object) (c : ascii) : result object :=
  if Ascii.eqb c "r" then Return (Str (builtins.repr obj))
  else if Ascii.eqb c "s" then Return (Str (builtins.str obj))
  else if Ascii.eqb c "a" then Raise Unmodelled
  else Raise ValueError   (* Unknown conversion specifier *).

(** [format(obj, format_spec)] *)
Definition format (obj : object) (format_spec : string) : result string :=
  match obj with
  | Part p => Return (VersionPart.__format__ p format_spec)
  | Str s => if Text.is_empty format_spec then Return s else Raise Unmodelled
  end.

(** [output_markup]: the object of the field, converted, then rendered. *)
Definition output_markup (fld : Formatter.field) (kwargs : gmap string object)
  : result string :=
  match get_field_object (Formatter.field_name fld) kwargs with
  | Raise e => Raise e
  | Return obj =>
      match
        match Formatter.conversion fld with
        | None => Return obj
        | Some c => do_conversion obj c
        end
      with
      | Raise e => Raise e
      | Return converted =>
          if Formatter.format_spec_needs_expanding fld then Raise Unmodelled
          else format converted (Formatter.format_spec fld)
      end
  end.

Fixpoint format_items (items : gen Formatter.item) (kwargs : gmap string object)
    (out : string) : result string :=
  match items with
  | Stop => Return out
  | Yield (literal_text, None) rest =>
      format_items rest kwargs (out +:+ literal_text)
  | Yield (literal_text, Some fld) rest =>
      match output_markup fld kwargs with
      | Raise e => Raise e
      | Return rendered =>
          format_items rest kwargs (out +:+ literal_text +:+ rendered)
      end
  | Throw e => Raise e
  end.

(** [format_string.format] called with the keyword arguments [kwargs]. *)
Definition str_format (format_string : string) (kwargs : gmap string object)
  : result string :=
  format_items (Formatter.parse format_string) kwargs EmptyString.

(** ** Methods: state and exceptions *)

Section Monad.
Context {S : Type}.

Definition M (A : Type) : Type := S -> S * result A.

Definition ret {A : Type} (a : A) : M A := fun s => (s, Return a).

Definition raise {A : Type} (e : exn) : M A := fun s => (s, Raise e).

Definition bind {A B : Type} (m : M A) (k : A -> M B) : M B :=
  fun s =>
    match m s with
    | (s', Return a) => k a s'
    | (s', Raise e) => (s', Raise e)
    end.

(** The object itself. *)
Definition get_self : M S := fun s => (s, Return s).

(** An assignment to the object. *)
Definition update (f : S -> S) : M unit := fun s => (f s, Return tt).

(** A call that returns or raises without access to the object. *)
Definition lift {A : Type} (r : result A) : M A := fun s => (s, r).

(** [try: body  except ...: handler]: [handler e] is [None] for an exception
    that no [except] clause names.  What [body] did to the object before it
    raised stays done. *)
Definition try_except {A : Type} (body : M A) (handler : exn -> option (M A)) : M A :=
  fun s =>
    match body s with
    | (s', Return a) => (s', Return a)
    | (s', Raise e) =>
        match handler e with
        | Some h => h s'
        | None => (s', Raise e)
        end
    end.

(** [for x in l: body], the local variables of the loop passed along. *)
Fixpoint for_list {A L : Type} (l : list A) (body : A -> L -> M L) (locals : L) : M L :=
  match l with
  | [] => ret locals
  | a :: l' => bind (body a locals) (for_list l' body)
  end.

(** [for x in g: body] for a generator [g]. *)
Fixpoint for_gen {A L : Type} (g : gen A) (body : A -> L -> M L) (locals : L) : M L :=
  match g with
  | Stop => ret locals
  | Yield a g' => bind (body a locals) (for_gen g' body)
  | Throw e => raise e
  end.

(** A computation that leaves the object as it found it, whether it returns
    or raises. *)
Definition readonly {A : Type} (m : M A) : Prop := forall s, fst (m s) = s.

End Monad.
Arguments M S A : clear implicits.

Create HintDb readonly.

Notation "'let*' x ':=' m 'in' k" := (bind m (fun x => k))
  (at level 10, x name, m at level 100, k at level 200).

(** ** The class [Version] *)

Module Version.

(** [_parsed] is assigned by [parse]: a [Version] of the model is an object
    on which [parse] has been called at least once, or one about to be
    parsed. *)
Record t : Type := {
  parse_regex : re.Pattern;
  serialize_formats : list string;
  context : gmap string string;
  _parsed : list (string * VersionPart.t)
}.

Definition set_parsed (d : list (string * VersionPart.t)) (self : t) : t :=
  {| parse_regex := parse_regex self;
     serialize_formats := serialize_formats self;
     context := context self;
     _parsed := d |}.

(** A label of a format string: the name of a field, or [None]. *)
Abbreviation label := (option string).

Definition _labels_for_format (serialize_format : string) : gen label :=
  gen_map (fun it : Formatter.item => Formatter.field_name <$> snd it)
          (Formatter.parse serialize_format).

(** [order]: [serialize_formats[0]] raises [IndexError] on an empty list. *)
Definition order : M t (gen label) :=
  let* self := get_self in
  match serialize_formats self with
  | [] => raise IndexError
  | first :: _ => ret (_labels_for_format first)
  end.

Definition parse (version_string : string) : M t unit :=
  let* self := get_self in
  let match_ := re.search (parse_regex self) version_string in
  let* _ := update (set_parsed []) in
  match match_ with
  | None => ret tt
  | Some m =>
      for_list (re.groupdict (parse_regex self) m)
        (fun '(key, value) _ =>
           update (fun self =>
             set_parsed
               (odict.set (_parsed self) key {| VersionPart._value := value |})
               self))
        tt
  end.

(** [values = self.context.copy(); values.update(self._parsed)] *)
Definition merged_values (self : t) : gmap string object :=
  foldl (fun values '(k, v) => <[k := Part v]> values)
        (Str <$> context self) (_parsed self).

(** One round of the loop that builds [keys_needing_representation], on the
    locals [found_required] and [keys_needing_representation]. *)
Definition keys_step (locals : bool * gset label) (kv : string * VersionPart.t)
  : bool * gset label :=
  let '(found_required, keys) := locals in
  let '(k, v) := kv in
  if negb (VersionPart.is_optional v) then (true, {[Some k]} ∪ keys)
  else if negb found_required then (found_required, {[Some k]} ∪ keys)
  else (found_required, keys).

(** The set [keys_needing_representation] as [_serialize] uses it (its first
    assignment is overwritten at once). *)
Definition keys_needing_representation (parsed : list (string * VersionPart.t))
  : gset label :=
  snd (foldl keys_step (false, ∅) parsed).

(** [set(g)] for a generator [g]. *)
Fixpoint set_of_gen (g : gen label) (acc : gset label) : result (gset label) :=
  match g with
  | Stop => Return acc
  | Yield a g' => set_of_gen g' ({[a]} ∪ acc)
  | Throw e => Raise e
  end.

Definition _serialize (serialize_format : string) (raise_if_incomplete : bool)
  : M t string :=
  let* self := get_self in
  let values := merged_values self in
  let* serialized :=
    try_except (lift (str_format serialize_format values))
      (fun e => match e with
                | KeyError key => Some (raise (KeyError key))
                | _ => None
                end) in
  let keys := keys_needing_representation (_parsed self) in
  let* required_by_format :=
    lift (set_of_gen (_labels_for_format serialize_format) ∅) in
  if raise_if_incomplete && bool_decide (required_by_format ⊂ keys)
  then raise IncompleteVersionRepresenationException
  else ret serialized.

(** [not chosen]: true for [None] and for the empty text. *)
Definition not_ (chosen : option string) : bool :=
  match chosen with
  | None => true
  | Some s => Text.is_empty s
  end.

(** One round of the loop of [_choose_serialize_format], on the local
    [chosen]. *)
Definition choose_round (serialize_format : string) (chosen : option string)
  : M t (option string) :=
  try_except
    (let* _ := _serialize serialize_format true in
     ret (Some serialize_format))
    (fun e => match e with
              | IncompleteVersionRepresenationException =>
                  Some (if not_ chosen then ret (Some serialize_format)
                        else ret chosen)
              | KeyError _ | KeyError_no_suitable_format => Some (ret chosen)
              | _ => None
              end).

Definition _choose_serialize_format : M t string :=
  let* self := get_self in
  let* chosen := for_list (serialize_formats self) choose_round None in
  match chosen with
  | Some fmt =>
      if not_ chosen then raise KeyError_no_suitable_format else ret fmt
  | None => raise KeyError_no_suitable_format
  end.

Definition serialize : M t string :=
  let* fmt := _choose_serialize_format in
  _serialize fmt false.

(** [self._parsed[name].method()] for a method that replaces the value of the
    part. *)
Definition on_part (name : string) (method : VersionPart.t -> result VersionPart.t)
  : M t unit :=
  let* self := get_self in
  match odict.get (_parsed self) name with
  | None => raise (KeyError name)
  | Some part =>
      let* part' := lift (method part) in
      update (fun self => set_parsed (odict.set (_parsed self) name part') self)
  end.

(** One round of the loop of [bump], on the local [bumped]. *)
Definition bump_round (part_name : string) (label : label) (bumped : bool)
  : M t bool :=
  let* self := get_self in
  match label with
  | None => ret bumped
  | Some name =>
      if negb (odict.contains (_parsed self) name) then ret bumped
      else if String.eqb name part_name then
        let* _ := on_part part_name VersionPart.bump in
        ret true
      else if bumped then
        let* _ := on_part name (fun p => Return (VersionPart.zero p)) in
        ret bumped
      else ret bumped
  end.

Definition bump (part_name : string) : M t unit :=
  let* labels := order in
  let* _ := for_gen labels (bump_round part_name) false in
  ret tt.

(** *** Readings of [_serialize] used to state its properties *)

(** [set(self._labels_for_format(serialize_format))] for a format string
    that is scanned to its end. *)
Definition required_by_format (serialize_format : string) : gset label :=
  list_to_set (yielded (_labels_for_format serialize_format)).

(** How [_serialize(serialize_format, raise_if_incomplete=True)] ends. *)
Definition accepted (self : t) (serialize_format : string) : bool :=
  match snd (_serialize serialize_format true self) with
  | Return _ => true
  | Raise _ => false
  end.

Definition incomplete (self : t) (serialize_format : string) : bool :=
  match snd (_serialize serialize_format true self) with
  | Raise IncompleteVersionRepresenationException => true
  | _ => false
  end.

(** The format string is scanned to its end without a [ValueError]. *)
Definition well_formed (serialize_format : string) : bool :=
  match thrown (Formatter.parse serialize_format) with
  | None => true
  | Some _ => false
  end.

(** The field is a bare name, as in [{major}]: a name that does not start
    with a digit, without attribute or index lookup, conversion or format
    specification. *)
Definition bare_field (fld : Formatter.field) : bool :=
  match Formatter.field_name fld with
  | EmptyString => false
  | String c _ => negb (Text.isdigit c)
  end
  && Text.all in_first (Formatter.field_name fld)
  && match Formatter.conversion fld with None => true | Some _ => false end
  && Text.is_empty (Formatter.format_spec fld)
  && negb (Formatter.format_spec_needs_expanding fld).

Definition bare_item (it : Formatter.item) : bool :=
  match snd it with
  | None => true
  | Some fld => bare_field fld
  end.

(** Every field of the format string, as far as it is scanned, is a bare
    name. *)
Definition bare_fields (serialize_format : string) : bool :=
  forallb bare_item (yielded (Formatter.parse serialize_format)).

(** The check made under [raise_if_incomplete] passes: the labels of the
    format are not a proper subset of [keys_needing_representation]. *)
Definition passes_check (self : t) (serialize_format : string) : bool :=
  negb (bool_decide (required_by_format serialize_format
                     ⊂ keys_needing_representation (_parsed self))).

(** [self._parsed[key] = VersionPart(value)] for one item of
    [groupdict()]. *)
Definition part_of_group (item : string * option string)
  : string * VersionPart.t :=
  (fst item, {| VersionPart._value := snd item |}).



(** [serialize_format.format] succeeds on the merged values. *)
Definition substitutes (self : t) (serialize_format : string) : bool :=
  match str_format serialize_format (merged_values self) with
  | Return _ => true
  | Raise _ => false
  end.

End Version.

(** ** Patterns and objects used in the examples *)

Module Examples.

Import re.

(** The default of [--parse]: [(?P<major>\d+)\.(?P<minor>\d+)\.(?P<patch>\d+)] *)
Definition default_parse : Pattern :=
  {| ast :=
       Cat (Group 1 (Plus digit))
         (Cat (lit ".")
            (Cat (Group 2 (Plus digit))
               (Cat (lit ".") (Group 3 (Plus digit)))));
     ngroups := 3;
     groupindex := [("major", 1%nat); ("minor", 2%nat); ("patch", 3%nat)] |}.

(** [(?P<major>\d+)\.(?P<minor>\d+)] *)
Definition major_minor : Pattern :=
  {| ast := Cat (Group 1 (Plus digit)) (Cat (lit ".") (Group 2 (Plus digit)));
     ngroups := 2;
     groupindex := [("major", 1%nat); ("minor", 2%nat)] |}.


(** A [Version] as [__init__] builds it, before [parse]. *)
Definition new (parse_regex : Pattern) (serialize_formats : list string)
    (context : gmap string string) : Version.t :=
  {| Version.parse_regex := parse_regex;
     Version.serialize_formats := serialize_formats;
     Version.context := context;
     Version._parsed := [] |}.

(** The object after [parse(version_string)]. *)
Definition parsed (self : Version.t) (version_string : string) : Version.t :=
  fst (Version.parse version_string self).

(** "1.2" parsed for the formats [{major}.{minor}] and [{major}]. *)
Definition two_formats : Version.t :=
  parsed (new major_minor ["{major}.{minor}"; "{major}"] ∅) "1.2".

(** "1.2" parsed for the format [{major}.{build}], the context holding a
    text under the name [build]. *)
Definition with_build : Version.t :=
  parsed (new major_minor ["{major}.{build}"] {[ "build" := "7" ]}) "1.2".

(** A text that the default pattern does not match, parsed. *)
Definition unparsed : Version.t :=
  parsed (new default_parse ["{major}.{minor}.{patch}"] ∅) "nothing".

(** "1.4.9" parsed for the default format. *)
Definition default_1_4_9 : Version.t :=
  parsed (new default_parse ["{major}.{minor}.{patch}"] ∅) "1.4.9".

(** "1.4.9" parsed for a first format without [{patch}]. *)
Definition short_format : Version.t :=
  parsed (new default_parse ["{major}.{minor}"] ∅) "1.4.9".

(** "1.4.9" parsed for a first format whose first field has two characters
    after the [!]. *)
Definition bad_conversion : Version.t :=
  parsed (new default_parse ["{major!rx}.{minor}"] ∅) "1.4.9".



(** "1.2.3" parsed for the formats [{major}] and [{major}.{minor}]. *)
Definition three_parts : Version.t :=
  parsed (new default_parse ["{major}"; "{major}.{minor}"] ∅) "1.2.3".



(** The default pattern followed by [-(?P<label>[a-z0-9]+)]. *)
Definition with_label : Pattern :=
  {| ast :=
       Cat (Group 1 (Plus digit))
         (Cat (lit ".")
            (Cat (Group 2 (Plus digit))
               (Cat (lit ".")
                  (Cat (Group 3 (Plus digit))
                     (Cat (lit "-")
                        (Group 4 (Plus (Chars Text.islower_or_digit))))))));
     ngroups := 4;
     groupindex := [("major", 1%nat); ("minor", 2%nat); ("patch", 3%nat);
                    ("label", 4%nat)] |}.

(** [parse(version_string); bump(part_name); serialize()] *)
Definition parse_bump_serialize (self : Version.t)
    (version_string part_name : string) : result string :=
  snd ((let* _ := Version.parse version_string in
        let* _ := Version.bump part_name in
        Version.serialize) self).

(** The text ["1"], a line feed, the text ["rc"]. *)
Definition two_lines : string := "1" +:+ String Text.newline "rc".

End Examples.

(** ** Decimal numerals *)

Module Numeral.

(** The loop of [Text.int], entered with the value read so far. *)
Fixpoint int_from (acc : N) (s : string) : N :=
  match s with
  | EmptyString => acc
  | String c s' => int_from (10 * acc + Text.digit_value c)%N s'
  end.

(** A text of one or more decimal digits. *)
Definition numeral (s : string) : bool :=
  negb (Text.is_empty s) && Text.all Text.isdigit s.

End Numeral.

(** Whether a call returned. *)
Definition returns {A : Type} (r : result A) : bool :=
  match r with Return _ => true | Raise _ => false end.

(** ** The command line *)

Module cli.

Definition OPTIONAL_ARGUMENTS_THAT_TAKE_VALUES : list string :=
  ["--config-file"; "--current-version"; "--message"; "--new-version";
   "--parse"; "--serialize"; "--tag-name"].

(** [s.startswith(prefix)] *)
Definition startswith (s prefix : string) : bool := String.prefix prefix s.

(** [enumerate(l)], counting from [i]. *)
Fixpoint enumerate_from {A : Type} (i : nat) (l : list A) : list (nat * A) :=
  match l with
  | [] => []
  | a :: l' => (i, a) :: enumerate_from (S i) l'
  end.

(** [previous in OPTIONAL_ARGUMENTS_THAT_TAKE_VALUES], where [previous] is
    [None] or a text. *)
Definition takes_value (previous : option string) : bool :=
  match previous with
  | None => false
  | Some p => existsb (String.eqb p) OPTIONAL_ARGUMENTS_THAT_TAKE_VALUES
  end.

(** The test of the loop: the argument is no long option and does not follow
    an option that takes a value. *)
Definition is_positional (previous : option string) (arg : string) : bool :=
  negb (startswith arg "--") && negb (takes_value previous).

(** The loop that collects [positions]. *)
Definition positions_of (args : list string) : list nat :=
  foldl (fun positions '(i, arg) =>
           let previous :=
             if (0 <? i)%nat then args !! (i - 1)%nat else None in
           if is_positional previous arg then positions ++ [i] else positions)
        [] (enumerate_from 0 args).

Definition split_args_in_optional_and_positional (args : list string)
  : list string * list string :=
  let positions := positions_of args in
  let positionals :=
    map snd (List.filter (fun '(i, _) => existsb (Nat.eqb i) positions)
                         (enumerate_from 0 args)) in
  let args' :=
    map snd (List.filter (fun '(i, _) => negb (existsb (Nat.eqb i) positions))
                         (enumerate_from 0 args)) in
  (positionals, args').

(** The same split by one pass over the arguments, each judged with the
    argument before it. *)
Fixpoint classify (previous : option string) (args : list string)
  : list string * list string :=
  match args with
  | [] => ([], [])
  | arg :: rest =>
      let '(positionals, others) := classify (Some arg) rest in
      if is_positional previous arg then (arg :: positionals, others)
      else (positionals, arg :: others)
  end.

End cli.

(** ** The action of [--serialize] *)

Module DiscardDefaultIfSpecifiedAppendAction.

(** The action and the attribute of the namespace it fills:
    [_discarded_default] is false while the action has no such attribute;
    [dest] is [None] while the attribute of the namespace is [None]. *)
Record state : Type := {
  _discarded_default : bool;
  dest : option (list string)
}.

(** [_AppendAction.__call__]: a copy of the list under [dest], an empty list
    if there is none, with [values] appended. *)
Definition append_call (values : string) (st : state) : state :=
  let items := match dest st with Some l => l | None => [] end in
  {| _discarded_default := _discarded_default st;
     dest := Some (items ++ [values]) |}.

Definition __call__ (values : string) (st : state) : state :=
  let st :=
    if _discarded_default st then st
    else {| _discarded_default := true; dest := Some [] |} in
  append_call values st.

End DiscardDefaultIfSpecifiedAppendAction.

(** ** Version control: what is read from the commands

    The classes [Git] and [Mercurial] run commands; the model takes the
    output of a command as an argument and follows what the methods do with
    it.  The output is a text of 8-bit characters. *)

Module vcs.

Inductive error : Type :=
| AssertionError
| IndexError
| ValueError
| UnicodeDecodeError.

Inductive outcome (A : Type) : Type :=
| Ok (a : A)
| Fail (e : error).
Arguments Ok {A} a.
Arguments Fail {A} e.

Definition and_then {A B : Type} (r : outcome A) (k : A -> outcome B)
  : outcome B :=
  match r with
  | Ok a => k a
  | Fail e => Fail e
  end.

(** [s.startswith(prefix)] *)
Definition startswith (s prefix : string) : bool := String.prefix prefix s.

(** White space of a byte string: space, [\t], [\n], [\v], [\f], [\r]. *)
Definition isspace (c : ascii) : bool :=
  let n := N_of_ascii c in ((9 <=? n) && (n <=? 13) || (n =? 32))%N.

(** White space of a decoded text, among the characters below 128: the same
    and the four separators 28 to 31. *)
Definition isspace_unicode (c : ascii) : bool :=
  let n := N_of_ascii c in
  ((9 <=? n) && (n <=? 13) || (28 <=? n) && (n <=? 32))%N.

(** [s.lstrip(chars)], [s.rstrip(chars)] and [s.strip(chars)] for the set of
    characters [chars]. *)
Definition lstrip (chars : ascii -> bool) (s : string) : string :=
  Text.drop_while chars s.

Fixpoint rstrip (chars : ascii -> bool) (s : string) : string :=
  match s with
  | EmptyString => EmptyString
  | String c s' =>
      let r := rstrip chars s' in
      if Text.is_empty r && chars c then EmptyString else String c r
  end.

Definition strip (chars : ascii -> bool) (s : string) : string :=
  rstrip chars (lstrip chars s).

Definition cr : ascii := ascii_of_N 13.

(** [s.splitlines()] of a byte string: a line ends at [\n], [\r] or [\r\n];
    the line being read is [line]. *)
Fixpoint splitlines_from (line : string) (s : string) : list string :=
  match s with
  | EmptyString => if Text.is_empty line then [] else [line]
  | String c s' =>
      if Ascii.eqb c Text.newline then line :: splitlines_from EmptyString s'
      else if Ascii.eqb c cr then
        match s' with
        | String c' s'' =>
            if Ascii.eqb c' Text.newline
            then line :: splitlines_from EmptyString s''
            else line :: splitlines_from EmptyString s'
        | EmptyString => [line]
        end
      else splitlines_from (line +:+ String c EmptyString) s'
  end.

Definition splitlines (s : string) : list string :=
  splitlines_from EmptyString s.

(** [assert_nondirty] of [Git] and of [Mercurial], on the output of the
    status command. *)
Definition assert_nondirty (status_output : string) : outcome unit :=
  let lines :=
    map (strip isspace)
        (List.filter (fun line => negb (startswith (strip isspace line) "??"))
                     (splitlines status_output)) in
  match lines with
  | [] => Ok tt
  | _ :: _ => Fail AssertionError
  end.

(** A value of the dictionary [info]. *)
Inductive value : Type :=
| VTrue
| VStr (s : string)
| VInt (n : N).

(** [s.split(sep)] for a separator of one character. *)
Fixpoint split (sep : ascii) (s : string) : list string :=
  match s with
  | EmptyString => [EmptyString]
  | String c s' =>
      if Ascii.eqb c sep then EmptyString :: split sep s'
      else match split sep s' with
           | piece :: pieces => String c piece :: pieces
           | [] => [String c EmptyString]
           end
  end.

(** [l.pop()]: the last item and the list without it. *)
Definition pop {A : Type} (l : list A) : outcome (A * list A) :=
  match rev l with
  | [] => Fail IndexError
  | x :: r => Ok (x, rev r)
  end.

(** [output.decode()] with the codec [ascii]. *)
Definition decode (output : string) : outcome string :=
  if Text.all (fun c => (N_of_ascii c <? 128)%N) output then Ok output
  else Fail UnicodeDecodeError.

Section LatestTagInfo.

(** [int] of a text; the theorems below say what they need of it. *)
Variable int : string -> outcome N.

(** [Git.latest_tag_info], on the output of [git describe]; [None] when a
    command ends with [CalledProcessError]. *)
Definition latest_tag_info (describe : option string)
  : outcome (gmap string value) :=
  match describe with
  | None => Ok ∅
  | Some output =>
      and_then (decode output) (fun text =>
      let describe_out := split "-" text in
      let info : gmap string value := ∅ in
      let '(info, describe_out) :=
        if String.eqb (strip isspace_unicode (List.last describe_out EmptyString))
                      "dirty"
        then (<["dirty" := VTrue]> info, removelast describe_out)
        else (info, describe_out) in
      and_then (pop describe_out) (fun '(sha, describe_out) =>
      let info := <["commit_sha" := VStr (lstrip (Ascii.eqb "g") sha)]> info in
      and_then (pop describe_out) (fun '(distance, describe_out) =>
      and_then (int distance) (fun n =>
      let info := <["distance_to_latest_tag" := VInt n]> info in
      and_then (pop describe_out) (fun '(tag, describe_out) =>
      let info := <["current_version" := VStr (lstrip (Ascii.eqb "v") tag)]> info in
      match describe_out with
      | [] => Ok info
      | _ :: _ => Fail AssertionError
      end)))))
  end.

End LatestTagInfo.

(** [int] on the texts of decimal digits, for the examples. *)
Definition int_of_digits (s : string) : outcome N :=
  if negb (Text.is_empty s) && Text.all Text.isdigit s then Ok (Text.int s)
  else Fail ValueError.

End vcs.

(** ** The shape of the command outputs, for the statements *)

Module Output.

Definition nl : string := String Text.newline EmptyString.

(** Lines put together, each ended by a line feed. *)
Fixpoint unlines (lines : list string) : string :=
  match lines with
  | [] => EmptyString
  | line :: lines' => line +:+ nl +:+ unlines lines'
  end.

(** The text has neither a line feed nor a carriage return. *)
Definition one_line (s : string) : bool :=
  Text.all (fun c => negb (Ascii.eqb c Text.newline) && negb (Ascii.eqb c vcs.cr)) s.

(** The line names an untracked file: it starts with [??] after the white
    space around it is removed. *)
Definition untracked (line : string) : bool :=
  vcs.startswith (vcs.strip vcs.isspace line) "??".

(** A character below 128 other than the hyphen. *)
Definition plain (c : ascii) : bool :=
  (N_of_ascii c <? 128)%N && negb (Ascii.eqb c "-").

(** A digit or a letter from [a] to [f]. *)
Definition hexdigit (c : ascii) : bool :=
  Text.isdigit c || ((97 <=? N_of_ascii c) && (N_of_ascii c <=? 102))%N.

(** What [git describe --dirty --tags --long] prints for the tag [v<version>],
    [distance] commits later at the commit [sha]. *)
Definition describe (version distance sha : string) (dirty : bool) : string :=
  "v" +:+ version +:+ "-" +:+ distance +:+ "-" +:+ "g" +:+ sha
  +:+ (if dirty then "-dirty" else EmptyString) +:+ nl.

End Output.

(** * Properties *)

(** ** Text *)

Lemma append_nil (s : string) : EmptyString +:+ s = s.
Proof. reflexivity. Qed.

Lemma append_cons (c : ascii) (s t : string) :
  String c s +:+ t = String c (s +:+ t).
Proof. reflexivity. Qed.

Lemma append_empty_r (s : string) : s +:+ EmptyString = s.
Proof.
  induction s as [|c s IH]; [reflexivity |].
  now rewrite append_cons, IH.
Qed.

Lemma append_assoc (a b c : string) : (a +:+ b) +:+ c = a +:+ (b +:+ c).
Proof.
  induction a as [|x a IH]; [reflexivity |].
  now rewrite !append_cons, IH.
Qed.

Lemma take_drop_while (p : ascii -> bool) (s : string) :
  Text.take_while p s +:+ Text.drop_while p s = s.
Proof.
  induction s as [|c s IH]; simpl; [reflexivity |].
  destruct (p c); [now rewrite append_cons, IH | reflexivity].
Qed.

Lemma take_while_all (p : ascii -> bool) (s : string) :
  Text.all p (Text.take_while p s) = true.
Proof.
  induction s as [|c s IH]; simpl; [reflexivity |].
  destruct (p c) eqn:E; simpl; [now rewrite E | reflexivity].
Qed.

Lemma drop_while_all (p : ascii -> bool) (s : string) :
  Text.all p s = true -> Text.drop_while p s = EmptyString.
Proof.
  induction s as [|c s IH]; simpl; [reflexivity |].
  destruct (p c); simpl; [assumption | discriminate].
Qed.

Lemma all_cons (q : ascii -> bool) (c : ascii) (s : string) :
  Text.all q (String c s) = true -> q c = true /\ Text.all q s = true.
Proof. simpl. destruct (q c); [auto | discriminate]. Qed.

(** What follows the longest prefix is empty or starts with a character that
    fails [p]. *)
Lemma drop_while_head (p : ascii -> bool) (s : string) :
  match Text.drop_while p s with
  | EmptyString => Text.all p s = true
  | String c _ => p c = false
  end.
Proof.
  induction s as [|c s IH]; simpl; [reflexivity |].
  destruct (p c) eqn:E; simpl; [| assumption].
  destruct (Text.drop_while p s); assumption.
Qed.

(** ** VersionPart: the effective value *)

(** C7.  The effective value of a part is "0" when nothing is stored (the
    empty text, or no text at all), it is never the empty text, and
    [is_optional] holds exactly when the effective value is "0": a part
    holding "" is optional and a part holding "1" is not. *)
Theorem effective_value_invariant (p : VersionPart.t) :
  VersionPart.value {| VersionPart._value := Some "" |} = "0"
  /\ VersionPart.value {| VersionPart._value := None |} = "0"
  /\ Text.is_empty (VersionPart.value p) = false
  /\ (VersionPart.is_optional p = true <-> VersionPart.value p = "0")
  /\ VersionPart.is_optional {| VersionPart._value := Some "" |} = true
  /\ VersionPart.is_optional {| VersionPart._value := Some "1" |} = false.
Proof.
  repeat split; try reflexivity.
  - destruct p as [[[|c s]|]]; reflexivity.
  - unfold VersionPart.is_optional. apply String.eqb_eq.
  - unfold VersionPart.is_optional. apply String.eqb_eq.
Qed.

(** ** re: the first way to match *)

Lemma head_flat_map {A B : Type} (f : A -> list B) (x : A) (l : list A) :
  head (flat_map f (x :: l)) =
  match head (f x) with
  | Some y => Some y
  | None => head (flat_map f l)
  end.
Proof. simpl. destruct (f x); reflexivity. Qed.

Lemma head_map {A B : Type} (f : A -> B) (l : list A) :
  head (map f l) = f <$> head l.
Proof. destruct l; reflexivity. Qed.

Lemma head_app_Some {A : Type} (l1 l2 : list A) (x : A) :
  head l1 = Some x -> head (l1 ++ l2) = Some x.
Proof. destruct l1; [discriminate | trivial]. Qed.

Lemma flat_map_nil {A B : Type} (f : A -> list B) (l : list A) :
  Forall (fun x => f x = []) l -> flat_map f l = [].
Proof.
  induction 1 as [|x l Hx _ IH]; simpl; [reflexivity |].
  now rewrite Hx, IH.
Qed.

Section FirstAttempt.
Import re.

Lemma rmatch_group_head (n : nat) (r : regex) (s : string) (g : captures)
    (m1 s1 : string) (g1 : captures) :
  head (rmatch r s g) = Some (m1, s1, g1) ->
  head (rmatch (Group n r) s g) = Some (m1, s1, (n, m1) :: g1).
Proof. intros H. cbn [rmatch]. now rewrite head_map, H. Qed.

Lemma rmatch_cat_head (r1 r2 : regex) (s : string) (g : captures)
    (m1 s1 : string) (g1 : captures) (m2 s2 : string) (g2 : captures) :
  head (rmatch r1 s g) = Some (m1, s1, g1) ->
  head (rmatch r2 s1 g1) = Some (m2, s2, g2) ->
  head (rmatch (Cat r1 r2) s g) = Some (m1 +:+ m2, s2, g2).
Proof.
  intros H1 H2. cbn [rmatch].
  destruct (rmatch r1 s g) as [|a l]; [discriminate |].
  injection H1 as ->.
  now rewrite head_flat_map, head_map, H2.
Qed.

(** A starred character set first takes the longest run of its characters. *)
Lemma star_chars_head (p : ascii -> bool) (s : string) :
  forall (n : nat) (g : captures),
    (String.length s < n)%nat ->
    head (star_loop (rmatch (Chars p)) n s g) =
    Some (Text.take_while p s, Text.drop_while p s, g).
Proof.
  induction s as [|c s IH]; intros [|n] g Hn; simpl in Hn; try lia.
  - reflexivity.
  - simpl. destruct (p c) eqn:E; [| reflexivity].
    simpl. rewrite app_nil_r.
    apply head_app_Some. rewrite head_map, IH by lia. reflexivity.
Qed.

Lemma rmatch_star_chars_head (p : ascii -> bool) (s : string) (g : captures) :
  head (rmatch (Star (Chars p)) s g) =
  Some (Text.take_while p s, Text.drop_while p s, g).
Proof. cbn [rmatch]. apply star_chars_head. lia. Qed.

Lemma rmatch_plus_chars_head (p : ascii -> bool) (c : ascii) (s : string)
    (g : captures) :
  p c = true ->
  head (rmatch (Plus (Chars p)) (String c s) g) =
  Some (Text.take_while p (String c s), Text.drop_while p (String c s), g).
Proof.
  intros E. unfold Plus.
  rewrite (rmatch_cat_head _ _ _ _ (String c EmptyString) s g
             (Text.take_while p s) (Text.drop_while p s) g).
  - simpl. now rewrite E.
  - simpl. now rewrite E.
  - apply rmatch_star_chars_head.
Qed.

(** Every way to match a starred character set leaves a suffix of the
    subject: a property of all the characters of the subject holds of what is
    left. *)
Lemma star_chars_rest (p q : ascii -> bool) (n : nat) :
  forall (s : string) (g : captures),
    Text.all q s = true ->
    Forall (fun a : attempt => Text.all q (snd (fst a)) = true)
           (star_loop (rmatch (Chars p)) n s g).
Proof.
  induction n as [|n IH]; intros s g Hs; simpl.
  - repeat constructor. assumption.
  - apply Forall_app. split; [| repeat constructor; assumption].
    apply Forall_flat_map.
    destruct s as [|c s]; simpl; [constructor |].
    destruct (p c); [| constructor].
    repeat constructor. simpl.
    apply Forall_map. apply all_cons in Hs as [_ Hs].
    eapply Forall_impl; [apply (IH s g Hs) |].
    intros [[m2 s2] g2]. trivial.
Qed.

Lemma search_ast_head (r : regex) (s m s' : string) (g : captures) :
  head (rmatch r s []) = Some (m, s', g) ->
  search_ast r s = Some {| bound := g |}.
Proof.
  intros H. destruct s as [|c s]; simpl;
    (destruct (rmatch r _ []) as [|att atts]; [discriminate |]);
    simpl in H; injection H as ->; reflexivity.
Qed.

Lemma search_ast_none (r : regex) (q : ascii -> bool) :
  (forall s, Text.all q s = true -> rmatch r s [] = []) ->
  forall s, Text.all q s = true -> search_ast r s = None.
Proof.
  intros Hr. induction s as [|c s IH]; intros Hs; simpl.
  - now rewrite (Hr EmptyString).
  - rewrite (Hr _ Hs). apply all_cons in Hs as [_ Hs]. auto.
Qed.

End FirstAttempt.

(** ** VersionPart.bump: what FIRST_NUMERIC finds *)

Section FirstNumeric.
Import re.

Lemma rmatch_cat_nil (r1 r2 : regex) (s : string) (g : captures) :
  Forall (fun a : attempt => rmatch r2 (snd (fst a)) (snd a) = [])
         (rmatch r1 s g) ->
  rmatch (Cat r1 r2) s g = [].
Proof.
  intros H. cbn [rmatch]. apply flat_map_nil.
  eapply Forall_impl; [exact H |].
  intros [[m1 s1] g1] E. simpl in E. now rewrite E.
Qed.

Lemma rmatch_group_star_rest (p q : ascii -> bool) (n : nat) (s : string)
    (g : captures) :
  Text.all q s = true ->
  Forall (fun a : attempt => Text.all q (snd (fst a)) = true)
         (rmatch (Group n (Star (Chars p))) s g).
Proof.
  intros Hs. cbn [rmatch]. apply Forall_map.
  eapply Forall_impl; [exact (star_chars_rest p q _ s g Hs) |].
  intros [[m1 s1] g1]. trivial.
Qed.

(** [\d+] does not match where no digit stands. *)
Lemma rmatch_digits_nil (n : nat) (r3 : regex) (s : string) (g : captures) :
  Text.all Text.notdigit s = true ->
  rmatch (Cat (Group n (Plus digit)) r3) s g = [].
Proof.
  intros Hs. apply rmatch_cat_nil.
  replace (rmatch (Group n (Plus digit)) s g) with (@nil attempt);
    [constructor |].
  destruct s as [|c s]; [reflexivity |].
  apply all_cons in Hs as [Hc _]. unfold Text.notdigit in Hc.
  cbn [rmatch Plus digit]. destruct (Text.isdigit c); [discriminate | reflexivity].
Qed.

Lemma first_numeric_nil (s : string) :
  Text.all Text.notdigit s = true ->
  rmatch (ast VersionPart.FIRST_NUMERIC) s [] = [].
Proof.
  intros Hs. apply rmatch_cat_nil.
  eapply Forall_impl;
    [exact (rmatch_group_star_rest _ Text.notdigit 1 s [] Hs) |].
  intros [[m1 s1] g1] H1. cbn [fst snd] in H1 |- *.
  now apply rmatch_digits_nil.
Qed.

(** The three groups of FIRST_NUMERIC on a text with a digit: the text before
    the first digit, the first run of digits, and what follows it on the
    same line. *)
Lemma first_numeric_groups (s : string) :
  let part_prefix := Text.take_while Text.notdigit s in
  let rest := Text.drop_while Text.notdigit s in
  let numeric_version := Text.take_while Text.isdigit rest in
  let after := Text.drop_while Text.isdigit rest in
  let part_suffix := Text.take_while Text.notnewline after in
  groups VersionPart.FIRST_NUMERIC <$> search VersionPart.FIRST_NUMERIC s =
  if Text.all Text.notdigit s then None
  else Some [Some part_prefix; Some numeric_version; Some part_suffix].
Proof.
  intros part_prefix rest numeric_version after part_suffix.
  destruct (Text.all Text.notdigit s) eqn:Hs.
  - unfold search.
    now rewrite (search_ast_none _ Text.notdigit first_numeric_nil s Hs).
  - pose proof (drop_while_head Text.notdigit s) as Hd. fold rest in Hd.
    destruct rest as [|d rest1] eqn:Hrest; [congruence |].
    assert (Text.isdigit d = true) as Hdigit
      by (unfold Text.notdigit in Hd; destruct (Text.isdigit d); [reflexivity | discriminate]).
    assert (head (rmatch (ast VersionPart.FIRST_NUMERIC) s []) =
            Some (part_prefix +:+ numeric_version +:+ part_suffix,
                  Text.drop_while Text.notnewline after,
                  [(3%nat, part_suffix); (2%nat, numeric_version);
                   (1%nat, part_prefix)])) as Hhead.
    { cbn [ast VersionPart.FIRST_NUMERIC].
      eapply rmatch_cat_head.
      - apply rmatch_group_head, rmatch_star_chars_head.
      - unfold rest in Hrest. rewrite Hrest.
        eapply rmatch_cat_head.
        + apply rmatch_group_head. now apply rmatch_plus_chars_head.
        + apply rmatch_group_head, rmatch_star_chars_head. }
    unfold search. now rewrite (search_ast_head _ _ _ _ _ Hhead).
Qed.

End FirstNumeric.

(** [bump] on any part: an [AttributeError] when the effective value has no
    digit; otherwise the first run of digits is replaced by its successor,
    the text before it is kept, and the text after it is kept up to the end
    of its line. *)
Lemma VersionPart_bump_spec (p : VersionPart.t) :
  let s := VersionPart.value p in
  let part_prefix := Text.take_while Text.notdigit s in
  let rest := Text.drop_while Text.notdigit s in
  let numeric_version := Text.take_while Text.isdigit rest in
  let after := Text.drop_while Text.isdigit rest in
  let part_suffix := Text.take_while Text.notnewline after in
  VersionPart.bump p =
  if Text.all Text.notdigit s then Raise AttributeError
  else Return {| VersionPart._value :=
                   Some (part_prefix
                         +:+ Text.str (Text.int numeric_version + 1)%N
                         +:+ part_suffix) |}.
Proof.
  intros s part_prefix rest numeric_version after part_suffix.
  pose proof (first_numeric_groups s) as H. cbv zeta in H.
  unfold VersionPart.bump. fold s.
  destruct (re.search VersionPart.FIRST_NUMERIC s) as [m|];
    destruct (Text.all Text.notdigit s);
    cbn [fmap option_fmap option_map] in H; try discriminate.
  - apply (inj Some) in H. now rewrite H.
  - reflexivity.
Qed.

Lemma all_app (p : ascii -> bool) (a b : string) :
  Text.all p (a +:+ b) = Text.all p a && Text.all p b.
Proof.
  induction a as [|c a IH]; [reflexivity |].
  rewrite append_cons. simpl. rewrite IH. now destruct (p c).
Qed.

Lemma take_while_all_id (p : ascii -> bool) (s : string) :
  Text.all p s = true -> Text.take_while p s = s.
Proof.
  induction s as [|c s IH]; [reflexivity |].
  intros [Hc Hs]%all_cons. simpl. now rewrite Hc, IH.
Qed.

Lemma drop_while_stuck (p : ascii -> bool) (s : string) :
  Text.take_while p s = EmptyString -> Text.drop_while p s = s.
Proof. destruct s as [|c s]; simpl; [reflexivity |]. now destruct (p c). Qed.

(** A run [a] of characters satisfying [p], followed by a text [b] that does
    not start with such a character, is split into [a] and [b]. *)
Lemma span_app (p : ascii -> bool) (a b : string) :
  Text.all p a = true ->
  Text.take_while p b = EmptyString ->
  Text.take_while p (a +:+ b) = a /\ Text.drop_while p (a +:+ b) = b.
Proof.
  intros Ha Hb. induction a as [|c a IH].
  - split; [exact Hb | now apply drop_while_stuck].
  - apply all_cons in Ha as [Hc Ha]. destruct (IH Ha) as [IH1 IH2].
    rewrite append_cons. simpl. rewrite Hc. now rewrite IH1, IH2.
Qed.

(** X1.  Where the text after the digits has no line feed, [bump] replaces the
    first run of digits by its successor and keeps the text before and after
    it as it is. *)
Lemma VersionPart_bump_one_line (p : VersionPart.t)
    (part_prefix numeric_version part_suffix : string) :
  VersionPart.value p = part_prefix +:+ numeric_version +:+ part_suffix ->
  Text.all Text.notdigit part_prefix = true ->
  Text.all Text.isdigit numeric_version = true ->
  Text.is_empty numeric_version = false ->
  Text.take_while Text.isdigit part_suffix = EmptyString ->
  Text.all Text.notnewline part_suffix = true ->
  VersionPart.bump p =
  Return {| VersionPart._value :=
              Some (part_prefix
                    +:+ Text.str (Text.int numeric_version + 1)%N
                    +:+ part_suffix) |}.
Proof.
  intros Hv Hp Hn Hne Hs Hl.
  rewrite VersionPart_bump_spec. cbv zeta. rewrite Hv.
  assert (Text.take_while Text.notdigit (numeric_version +:+ part_suffix)
          = EmptyString) as Hstuck.
  { destruct numeric_version as [|d ds]; [discriminate |].
    apply all_cons in Hn as [Hd _]. rewrite append_cons. simpl.
    unfold Text.notdigit. now rewrite Hd. }
  destruct (span_app Text.notdigit part_prefix _ Hp Hstuck) as [-> ->].
  destruct (span_app Text.isdigit numeric_version _ Hn Hs) as [-> ->].
  rewrite (take_while_all_id _ _ Hl).
  rewrite all_app, Hp, all_app. simpl.
  destruct numeric_version as [|d ds]; [discriminate |].
  apply all_cons in Hn as [Hd _]. simpl. unfold Text.notdigit at 1.
  now rewrite Hd.
Qed.

(** The value "v2beta" becomes "v3beta". *)
Lemma VersionPart_bump_one_line_witness :
  VersionPart.bump {| VersionPart._value := Some "v2beta" |} =
  Return {| VersionPart._value := Some "v3beta" |}.
Proof.
  exact (VersionPart_bump_one_line
           {| VersionPart._value := Some "v2beta" |} "v" "2" "beta"
           eq_refl eq_refl eq_refl eq_refl eq_refl eq_refl).
Defined.

(** X2.  Without a digit in the effective value [bump] fails: [search] finds
    nothing and [None] has no [groups]. *)
Lemma VersionPart_bump_no_digit (p : VersionPart.t) :
  Text.all Text.notdigit (VersionPart.value p) = true ->
  VersionPart.bump p = Raise AttributeError.
Proof. intros H. rewrite VersionPart_bump_spec. cbv zeta. now rewrite H. Qed.

(** The value "beta" has no digit. *)
Lemma VersionPart_bump_no_digit_witness :
  VersionPart.bump {| VersionPart._value := Some "beta" |} = Raise AttributeError.
Proof.
  exact (VersionPart_bump_no_digit {| VersionPart._value := Some "beta" |} eq_refl).
Defined.

(** C5.  On a part whose value is "1", a line feed and "rc", [bump] returns
    the value "2": the first run of digits is replaced by its successor, and
    the text after it is cut at the line feed instead of being kept.  The
    values "v2beta" and "0" become "v3beta" and "1". *)
Theorem VersionPart_bump_drops_text_after_line_feed :
  VersionPart.bump {| VersionPart._value := Some Examples.two_lines |} =
    Return {| VersionPart._value := Some "2" |}
  /\ VersionPart.bump {| VersionPart._value := Some "v2beta" |} =
    Return {| VersionPart._value := Some "v3beta" |}
  /\ VersionPart.bump {| VersionPart._value := Some "0" |} =
    Return {| VersionPart._value := Some "1" |}.
Proof. repeat split; vm_compute; reflexivity. Qed.

(** ** Version._serialize *)

Section Serialize.
Import Version.

(** A format that [str.format] renders is scanned to its end without an
    exception. *)
Lemma format_items_thrown (items : gen Formatter.item)
    (kwargs : gmap string object) :
  forall (out s : string),
    format_items items kwargs out = Return s -> thrown items = None.
Proof.
  induction items as [| [literal_text [fld|]] rest IH | e]; intros out s H;
    simpl in *.
  - reflexivity.
  - destruct (output_markup fld kwargs); [eauto | discriminate].
  - eauto.
  - discriminate.
Qed.

(** A field that is a bare name is looked up by that name and rendered
    without a format specification. *)
Lemma get_integer_name (c : ascii) (name : string) :
  Text.isdigit c = false -> get_integer (String c name) = Return None.
Proof.
  intros Hc. unfold get_integer. cbn [Text.take_while Text.drop_while].
  rewrite Hc. reflexivity.
Qed.

Lemma output_markup_bare (fld : Formatter.field) (kwargs : gmap string object) :
  bare_field fld = true ->
  output_markup fld kwargs =
  match kwargs !! Formatter.field_name fld with
  | None => Raise (KeyError (Formatter.field_name fld))
  | Some obj => format obj EmptyString
  end.
Proof.
  unfold bare_field. intros H.
  apply andb_prop in H as [H Hexp]. apply andb_prop in H as [H Hspec].
  apply andb_prop in H as [H Hconv]. apply andb_prop in H as [Hhead Hfirst].
  destruct fld as [name conv spec expanding]. cbn [Formatter.field_name
    Formatter.conversion Formatter.format_spec
    Formatter.format_spec_needs_expanding] in *.
  destruct conv; [discriminate |]. destruct expanding; [discriminate |].
  destruct spec; [| discriminate].
  unfold output_markup, get_field_object.
  cbn [Formatter.field_name Formatter.conversion Formatter.format_spec
       Formatter.format_spec_needs_expanding].
  rewrite (take_while_all_id _ _ Hfirst), (drop_while_all _ _ Hfirst).
  destruct name as [|c name]; [discriminate |].
  apply negb_true_iff in Hhead. rewrite (get_integer_name _ _ Hhead).
  cbn [Text.is_empty]. now destruct (kwargs !! String c name).
Qed.

(** [format] without a format specification returns. *)
Lemma format_empty (obj : object) :
  exists s, format obj EmptyString = Return s.
Proof. destruct obj; simpl; eauto. Qed.

Lemma thrown_gen_map {A B : Type} (f : A -> B) (g : gen A) :
  thrown (gen_map f g) = thrown g.
Proof. induction g; simpl; auto. Qed.

Lemma yielded_gen_map {A B : Type} (f : A -> B) (g : gen A) :
  yielded (gen_map f g) = map f (yielded g).
Proof. induction g; simpl; [| f_equal |]; auto. Qed.

Lemma set_of_gen_yielded (g : gen label) :
  forall acc : gset label,
    thrown g = None ->
    set_of_gen g acc = Return (list_to_set (yielded g) ∪ acc).
Proof.
  induction g as [| a g IH | e]; intros acc Hg; simpl in *.
  - now rewrite (left_id_L ∅ (∪)).
  - rewrite IH by assumption. f_equal.
    rewrite (comm_L (∪) {[a]} (list_to_set (yielded g))).
    now rewrite <- (assoc_L (∪)).
  - discriminate.
Qed.

(** [_serialize] in one equation: it leaves the object as it is; it raises
    what [str.format] raises; a rendered text is returned unless
    [raise_if_incomplete] is set and the labels of the format are a proper
    subset of [keys_needing_representation]. *)
Lemma _serialize_spec (serialize_format : string) (raise_if_incomplete : bool)
    (self : t) :
  _serialize serialize_format raise_if_incomplete self =
  (self,
   match str_format serialize_format (merged_values self) with
   | Raise e => Raise e
   | Return serialized =>
       if raise_if_incomplete
          && bool_decide (required_by_format serialize_format
                          ⊂ keys_needing_representation (_parsed self))
       then Raise IncompleteVersionRepresenationException
       else Return serialized
   end).
Proof.
  unfold _serialize, bind, get_self, try_except, lift.
  destruct (str_format serialize_format (merged_values self)) as [serialized|e] eqn:E.
  - unfold str_format in E. apply format_items_thrown in E.
    rewrite set_of_gen_yielded by (unfold _labels_for_format; now rewrite thrown_gen_map).
    rewrite union_empty_r_L. fold (required_by_format serialize_format).
    now destruct (raise_if_incomplete && _).
  - destruct e; reflexivity.
Qed.

End Serialize.

(** ** Methods that only read the object *)

Section ReadOnly.
Context {S : Type}.

Lemma readonly_ret {A : Type} (a : A) : readonly (@ret S A a).
Proof. intros s. reflexivity. Qed.

Lemma readonly_raise {A : Type} (e : exn) : readonly (@raise S A e).
Proof. intros s. reflexivity. Qed.

Lemma readonly_lift {A : Type} (r : result A) : readonly (@lift S A r).
Proof. intros s. reflexivity. Qed.

Lemma readonly_get_self : readonly (@get_self S).
Proof. intros s. reflexivity. Qed.

Lemma readonly_bind {A B : Type} (m : M S A) (k : A -> M S B) :
  readonly m -> (forall a, readonly (k a)) -> readonly (bind m k).
Proof.
  intros Hm Hk s. unfold bind. specialize (Hm s).
  destruct (m s) as [s' [a|e]]; simpl in Hm; subst s'; [apply Hk | reflexivity].
Qed.

Lemma readonly_try_except {A : Type} (body : M S A)
    (handler : exn -> option (M S A)) :
  readonly body ->
  (forall e h, handler e = Some h -> readonly h) ->
  readonly (try_except body handler).
Proof.
  intros Hb Hh s. unfold try_except. specialize (Hb s).
  destruct (body s) as [s' [a|e]]; simpl in Hb; subst s'; [reflexivity |].
  destruct (handler e) as [h|] eqn:E; [eapply Hh; eassumption | reflexivity].
Qed.

Lemma readonly_for_list {A L : Type} (l : list A) (body : A -> L -> M S L) :
  (forall a locals, readonly (body a locals)) ->
  forall locals, readonly (for_list l body locals).
Proof.
  intros Hb. induction l as [|a l IH]; intros locals; simpl.
  - apply readonly_ret.
  - apply readonly_bind; auto.
Qed.

End ReadOnly.

#[local] Hint Resolve readonly_ret readonly_raise readonly_lift
  readonly_get_self : readonly.

Section Frame.
Import Version.

Lemma readonly__serialize (serialize_format : string) (raise_if_incomplete : bool) :
  readonly (_serialize serialize_format raise_if_incomplete).
Proof. intros self. now rewrite _serialize_spec. Qed.

Lemma readonly_choose_round (serialize_format : string) (chosen : option string) :
  readonly (choose_round serialize_format chosen).
Proof.
  apply readonly_try_except.
  - apply readonly_bind; [apply readonly__serialize | auto with readonly].
  - intros e h H.
    destruct e; try discriminate; injection H as <-;
      try destruct (not_ chosen); auto with readonly.
Qed.

Lemma readonly__choose_serialize_format : readonly _choose_serialize_format.
Proof.
  apply readonly_bind; [auto with readonly | intros self].
  apply readonly_bind.
  - apply readonly_for_list. apply readonly_choose_round.
  - intros [fmt|]; [destruct (not_ (Some fmt)) |]; auto with readonly.
Qed.

Lemma readonly_serialize : readonly serialize.
Proof.
  apply readonly_bind;
    [apply readonly__choose_serialize_format | intros; apply readonly__serialize].
Qed.

End Frame.

(** ** A [dict] in iteration order: reading and assignment *)

Section OdictFacts.
Context {V : Type}.
Implicit Types (d : list (string * V)) (k : string) (v : V).

Lemma odict_get_app d1 d2 k :
  odict.get (d1 ++ d2) k =
  match odict.get d1 k with
  | Some v => Some v
  | None => odict.get d2 k
  end.
Proof.
  induction d1 as [|[k' v'] d1 IH]; simpl; [reflexivity |].
  now destruct (String.eqb k k').
Qed.

Lemma odict_get_set_eq d k v : odict.get (odict.set d k v) k = Some v.
Proof.
  induction d as [|[k' v'] d IH]; simpl.
  - now rewrite String.eqb_refl.
  - destruct (String.eqb k k') eqn:E; simpl; rewrite ?String.eqb_refl, ?E; auto.
Qed.

Lemma odict_get_set_ne d k k' v :
  k <> k' -> odict.get (odict.set d k v) k' = odict.get d k'.
Proof.
  intros Hne. induction d as [|[k0 v0] d IH]; simpl.
  - apply String.eqb_neq in Hne. rewrite String.eqb_sym. now rewrite Hne.
  - destruct (String.eqb k k0) eqn:E; simpl.
    + apply String.eqb_eq in E. subst k0.
      assert (String.eqb k' k = false) as ->; [| reflexivity].
      apply String.eqb_neq. congruence.
    + now rewrite IH.
Qed.

Lemma odict_keys_set d k v :
  odict.contains d k = true -> odict.keys (odict.set d k v) = odict.keys d.
Proof.
  unfold odict.contains, odict.keys.
  induction d as [|[k' v'] d IH]; simpl; [discriminate |].
  destruct (String.eqb k k') eqn:E; simpl; intros H.
  - apply String.eqb_eq in E. now subst.
  - now rewrite IH.
Qed.

Lemma odict_set_fresh d k v :
  odict.contains d k = false -> odict.set d k v = d ++ [(k, v)].
Proof.
  unfold odict.contains.
  induction d as [|[k' v'] d IH]; simpl; [reflexivity |].
  destruct (String.eqb k k'); [discriminate |]. intros H. now rewrite IH.
Qed.

Lemma odict_contains_keys d k :
  odict.contains d k = true <-> In k (odict.keys d).
Proof.
  unfold odict.contains, odict.keys.
  induction d as [|[k' v'] d IH]; simpl; [split; [discriminate | tauto] |].
  destruct (String.eqb k k') eqn:E.
  - apply String.eqb_eq in E. subst. tauto.
  - apply String.eqb_neq in E. rewrite IH. split; [tauto |].
    intros [->|H]; [congruence | assumption].
Qed.

End OdictFacts.

Section Frame.
Import Version.

Lemma foldl_values_lookup (d : list (string * VersionPart.t))
    (name : string) :
  forall values : gmap string object,
    foldl (fun values '(k, v) => <[k := Part v]> values) values d !! name =
    match odict.get (rev d) name with
    | Some part => Some (Part part)
    | None => values !! name
    end.
Proof.
  induction d as [|[k v] d IH]; intros values; simpl; [reflexivity |].
  rewrite IH, odict_get_app. destruct (odict.get (rev d) name); [reflexivity |].
  simpl. destruct (String.eqb name k) eqn:E.
  - apply String.eqb_eq in E. subst. now rewrite lookup_insert_eq.
  - apply String.eqb_neq in E. rewrite lookup_insert_ne; congruence.
Qed.

(** [values.update(self._parsed)]: a part replaces the text of the context
    under its name (and a later item of a list replaces an earlier one of
    the same name). *)
Lemma merged_values_lookup (self : t) (name : string) :
  merged_values self !! name =
  match odict.get (rev (_parsed self)) name with
  | Some part => Some (Part part)
  | None => Str <$> context self !! name
  end.
Proof.
  unfold merged_values. rewrite foldl_values_lookup. now rewrite lookup_fmap.
Qed.

(** C9.  [serialize], the choice of the format and [_serialize] leave the
    object as it is, whether they return or raise: the parsed parts and the
    context are the same before and after.  Substitution reads a separate
    dictionary, the context overlaid with the parts, where a part stands in
    front of a text of the context that has the same name. *)
Theorem serialize_leaves_object_unchanged (self : t)
    (serialize_format : string) (raise_if_incomplete : bool) (name : string) :
  fst (serialize self) = self
  /\ fst (_choose_serialize_format self) = self
  /\ fst (_serialize serialize_format raise_if_incomplete self) = self
  /\ merged_values self !! name =
     match odict.get (rev (_parsed self)) name with
     | Some part => Some (Part part)
     | None => Str <$> context self !! name
     end.
Proof.
  split; [apply readonly_serialize |].
  split; [apply readonly__choose_serialize_format |].
  split; [apply readonly__serialize | apply merged_values_lookup].
Qed.

End Frame.

(** ** Version._choose_serialize_format *)

Section Choose.
Import Version.

(** On a format string that is scanned to its end and whose fields are bare
    names, [str.format] returns a text or raises a [KeyError]. *)
Lemma format_items_outcome (items : gen Formatter.item)
    (kwargs : gmap string object) :
  forallb bare_item (yielded items) = true ->
  thrown items = None ->
  forall out : string,
    match format_items items kwargs out with
    | Return _ | Raise (KeyError _) => True
    | Raise _ => False
    end.
Proof.
  induction items as [| [literal_text [fld|]] rest IH | e]; intros Hb Hg out;
    simpl in *.
  - exact I.
  - apply andb_prop in Hb as [Hfld Hb]. unfold bare_item in Hfld. simpl in Hfld.
    rewrite (output_markup_bare _ _ Hfld).
    destruct (kwargs !! Formatter.field_name fld) as [obj|]; [| exact I].
    destruct (format_empty obj) as [s ->]. now apply IH.
  - now apply IH.
  - discriminate.
Qed.

(** A well-formed format of bare names is accepted, or rejected as
    incomplete, or misses a key; exactly one of the three. *)
Lemma well_formed_outcome (self : t) (serialize_format : string) :
  well_formed serialize_format = true ->
  bare_fields serialize_format = true ->
  match snd (_serialize serialize_format true self) with
  | Return _
  | Raise IncompleteVersionRepresenationException
  | Raise (KeyError _) => True
  | Raise _ => False
  end.
Proof.
  unfold well_formed, bare_fields. intros Hw Hb. rewrite _serialize_spec. simpl.
  pose proof (format_items_outcome (Formatter.parse serialize_format)
                (merged_values self) Hb) as H.
  destruct (thrown (Formatter.parse serialize_format)); [discriminate |].
  specialize (H eq_refl EmptyString). unfold str_format.
  destruct (format_items _ _ _) as [s|e]; [| now destruct e].
  now destruct (bool_decide _).
Qed.

(** One round of the loop, by the way [_serialize] ends. *)
Lemma choose_round_spec (serialize_format : string) (chosen : option string)
    (self : t) :
  choose_round serialize_format chosen self =
  (self,
   match snd (_serialize serialize_format true self) with
   | Return _ => Return (Some serialize_format)
   | Raise IncompleteVersionRepresenationException =>
       Return (if not_ chosen then Some serialize_format else chosen)
   | Raise (KeyError _) | Raise KeyError_no_suitable_format => Return chosen
   | Raise e => Raise e
   end).
Proof.
  unfold choose_round, try_except, bind.
  pose proof (readonly__serialize serialize_format true self) as Hfst.
  destruct (_serialize serialize_format true self) as [self' [s|e]];
    simpl in Hfst; subst self'; simpl; [reflexivity |].
  destruct e; try reflexivity. now destruct (not_ chosen).
Qed.

Lemma find_snoc {A : Type} (p : A -> bool) (l : list A) (x : A) :
  find p (l ++ [x]) =
  match find p l with
  | Some y => Some y
  | None => if p x then Some x else None
  end.
Proof.
  induction l as [|a l IH]; simpl; [reflexivity |].
  now destruct (p a).
Qed.

(** The local [chosen] after the loop over the formats [fmts], entered with
    [chosen]: the last accepted format if there is one; otherwise what was
    chosen before if that is a true value; otherwise the first incomplete
    format. *)
Lemma choose_loop (self : t) (fmts : list string) :
  forallb (fun f => negb (Text.is_empty f)) fmts = true ->
  forallb well_formed fmts = true ->
  forallb bare_fields fmts = true ->
  forall chosen : option string,
    for_list fmts choose_round chosen self =
    (self,
     Return
       match find (accepted self) (rev fmts) with
       | Some f => Some f
       | None =>
           if not_ chosen then
             match find (incomplete self) fmts with
             | Some f => Some f
             | None => chosen
             end
           else chosen
       end).
Proof.
  induction fmts as [|f fmts IH]; intros Hne Hwf Hbare chosen.
  - simpl. now destruct (not_ chosen).
  - simpl in Hne, Hwf, Hbare.
    apply andb_prop in Hne as [Hf Hne]. apply andb_prop in Hwf as [Hw Hwf].
    apply andb_prop in Hbare as [Hb Hbare].
    cbn [for_list]. unfold bind at 1. rewrite choose_round_spec.
    pose proof (well_formed_outcome self f Hw Hb) as Hout.
    assert (not_ (Some f) = false) as Hnot
      by (simpl; now destruct (Text.is_empty f)).
    cbn [rev find]. rewrite find_snoc.
    destruct (snd (_serialize f true self)) as [s|e] eqn:Eout.
    + assert (accepted self f = true) as -> by (unfold accepted; now rewrite Eout).
      rewrite IH by assumption. rewrite Hnot.
      now destruct (find (accepted self) (rev fmts)).
    + assert (accepted self f = false) as -> by (unfold accepted; now rewrite Eout).
      destruct e; try contradiction.
      * assert (incomplete self f = false) as ->
          by (unfold incomplete; now rewrite Eout).
        rewrite IH by assumption.
        now destruct (find (accepted self) (rev fmts)).
      * assert (incomplete self f = true) as ->
          by (unfold incomplete; now rewrite Eout).
        rewrite IH by assumption.
        destruct (find (accepted self) (rev fmts)); [reflexivity |].
        destruct (not_ chosen) eqn:En; [now rewrite Hnot | now rewrite En].
Qed.

End Choose.

Section Selection.
Import Version.

(** The scanner raises a [ValueError], unless it ends with [Unmodelled]. *)
Lemma parse_field_raise (text : string) (e : exn) :
  Formatter.parse_field text = Raise e -> e = ValueError.
Proof.
  unfold Formatter.parse_field.
  destruct (Text.drop_while Formatter.in_name text) as [|c after];
    [discriminate |].
  destruct (Ascii.eqb c "!"); [| discriminate].
  destruct after as [|c1 after1]; [congruence |].
  destruct after1 as [|c2 spec]; [discriminate |].
  destruct (Ascii.eqb c2 ":"); [discriminate | congruence].
Qed.

Lemma scan_thrown (s : string) :
  forall (m : Formatter.mode) (e : exn),
    thrown (Formatter.scan m s) = Some e -> e = ValueError \/ e = Unmodelled.
Proof.
  induction s as [|c s IH]; intros m e; simpl.
  - destruct m; simpl; try (intros [= <-]; auto).
    destruct (Text.is_empty lit); simpl; congruence.
  - destruct m as [lit | lit | lit | lit [|depth] text]; cbv zeta;
      repeat match goal with
             | |- context [if ?b then _ else _] => destruct b
             end;
      simpl; eauto; try (intros [= <-]; auto);
      destruct (Formatter.parse_field _) as [fld|e'] eqn:E; simpl; eauto;
      intros [= <-]; left; exact (parse_field_raise _ _ E).
Qed.

(** What [str.format] raises. *)
Lemma get_field_object_raise (name : string) (kwargs : gmap string object)
    (e : exn) :
  get_field_object name kwargs = Raise e ->
  match e with
  | KeyError _ | ValueError | IndexError | Unmodelled => True
  | _ => False
  end.
Proof.
  unfold get_field_object, get_integer.
  destruct (_ <? _)%N.
  - destruct (Text.is_empty _ || _).
    + destruct (Text.is_empty _); [intros [= <-]; exact I |].
      destruct (kwargs !! _); [| intros [= <-]; exact I].
      destruct (Text.is_empty _); [discriminate | intros [= <-]; exact I].
    + intros [= <-]. exact I.
  - destruct (_ <=? _)%N; intros [= <-]; exact I.
Qed.

Lemma do_conversion_raise (obj : object) (c : ascii) (e : exn) :
  do_conversion obj c = Raise e ->
  match e with
  | KeyError _ | ValueError | IndexError | Unmodelled => True
  | _ => False
  end.
Proof.
  unfold do_conversion.
  destruct (Ascii.eqb c "r"); [discriminate |].
  destruct (Ascii.eqb c "s"); [discriminate |].
  destruct (Ascii.eqb c "a"); intros [= <-]; exact I.
Qed.

Lemma format_raise (obj : object) (format_spec : string) (e : exn) :
  format obj format_spec = Raise e ->
  match e with
  | KeyError _ | ValueError | IndexError | Unmodelled => True
  | _ => False
  end.
Proof.
  destruct obj as [s|p]; simpl; [| discriminate].
  destruct (Text.is_empty format_spec); [discriminate |].
  intros [= <-]. exact I.
Qed.

Lemma output_markup_raise (fld : Formatter.field) (kwargs : gmap string object)
    (e : exn) :
  output_markup fld kwargs = Raise e ->
  match e with
  | KeyError _ | ValueError | IndexError | Unmodelled => True
  | _ => False
  end.
Proof.
  unfold output_markup.
  destruct (get_field_object _ kwargs) as [obj|e1] eqn:E1.
  - destruct (Formatter.conversion fld) as [c|].
    + destruct (do_conversion obj c) as [converted|e2] eqn:E2.
      * destruct (Formatter.format_spec_needs_expanding fld);
          [intros [= <-]; exact I | apply format_raise].
      * intros [= <-]. exact (do_conversion_raise _ _ _ E2).
    + destruct (Formatter.format_spec_needs_expanding fld);
        [intros [= <-]; exact I | apply format_raise].
  - intros [= <-]. exact (get_field_object_raise _ _ _ E1).
Qed.

Lemma format_items_raise (items : gen Formatter.item)
    (kwargs : gmap string object) (e : exn) :
  forall out : string,
    format_items items kwargs out = Raise e ->
    match e with
    | KeyError _ | ValueError | IndexError | Unmodelled => True
    | _ => False
    end
    \/ thrown items = Some e.
Proof.
  induction items as [| [literal_text [fld|]] rest IH | e']; intros out E;
    simpl in *.
  - discriminate.
  - destruct (output_markup fld kwargs) as [rendered|e'] eqn:Ef; [eauto |].
    injection E as <-. left. exact (output_markup_raise _ _ _ Ef).
  - eauto.
  - injection E as ->. auto.
Qed.

(** [str.format] raises a [KeyError], a [ValueError] or an [IndexError],
    unless it ends with [Unmodelled]. *)
Lemma str_format_raise (f : string) (kwargs : gmap string object) (e : exn) :
  str_format f kwargs = Raise e ->
  match e with
  | KeyError _ | ValueError | IndexError | Unmodelled => True
  | _ => False
  end.
Proof.
  intros E. apply format_items_raise in E as [E|E]; [exact E |].
  apply scan_thrown in E as [-> | ->]; exact I.
Qed.

Lemma accepted_eq (self : t) (f : string) :
  accepted self f = substitutes self f && passes_check self f.
Proof.
  unfold accepted, substitutes, passes_check. rewrite _serialize_spec. simpl.
  destruct (str_format f (merged_values self)); [| reflexivity].
  now destruct (bool_decide _).
Qed.

Lemma incomplete_eq (self : t) (f : string) :
  incomplete self f = substitutes self f && negb (passes_check self f).
Proof.
  unfold incomplete, substitutes, passes_check. rewrite _serialize_spec. simpl.
  destruct (str_format f (merged_values self)) as [s|e] eqn:E.
  - now destruct (bool_decide _).
  - apply str_format_raise in E. now destruct e.
Qed.

Lemma substitutes_eq (self : t) (f : string) :
  substitutes self f = accepted self f || incomplete self f.
Proof.
  rewrite accepted_eq, incomplete_eq.
  now destruct (substitutes self f), (passes_check self f).
Qed.

(** How [_serialize] with [raise_if_incomplete] set can end. *)
Lemma _serialize_outcome (self : t) (f : string) :
  match snd (_serialize f true self) with
  | Return _ | Raise IncompleteVersionRepresenationException =>
      substitutes self f = true
  | Raise (KeyError _) | Raise ValueError | Raise IndexError
  | Raise Unmodelled => True
  | Raise _ => False
  end.
Proof.
  rewrite _serialize_spec. cbn [snd]. unfold substitutes.
  destruct (str_format f (merged_values self)) as [s|e] eqn:E.
  - now destruct (true && _).
  - apply str_format_raise in E. now destruct e.
Qed.

(** The loop of [_choose_serialize_format] on any formats: it leaves the
    object as it is; the local [chosen] is what it was, or one of the
    formats, and that one substitutes; what [str.format] raises other than a
    [KeyError] ends the loop. *)
Lemma choose_loop_general (self : t) (fmts : list string) :
  forall chosen : option string,
    match for_list fmts choose_round chosen self with
    | (self', Return c) =>
        self' = self
        /\ (c = chosen
            \/ exists f, c = Some f /\ In f fmts /\ substitutes self f = true)
    | (self', Raise e) =>
        self' = self
        /\ match e with
           | ValueError | IndexError | Unmodelled => True
           | _ => False
           end
    end.
Proof.
  induction fmts as [|f fmts IH]; intros chosen; [simpl; auto |].
  cbn [for_list]. unfold bind. rewrite choose_round_spec.
  pose proof (_serialize_outcome self f) as Hout.
  assert (forall c,
            c = chosen \/ c = Some f /\ substitutes self f = true ->
            match for_list fmts choose_round c self with
            | (self', Return c') =>
                self' = self
                /\ (c' = chosen
                    \/ exists f', c' = Some f' /\ In f' (f :: fmts)
                                  /\ substitutes self f' = true)
            | (self', Raise e) =>
                self' = self
                /\ match e with
                   | ValueError | IndexError | Unmodelled => True
                   | _ => False
                   end
            end) as Hnext.
  { intros c Hc. specialize (IH c).
    destruct (for_list fmts choose_round c self) as [self' [c'|e]]; [| exact IH].
    destruct IH as [-> [-> | (f' & -> & Hin & Hs)]].
    - split; [reflexivity |].
      destruct Hc as [-> | [-> Hs]]; [now left | right].
      exists f. repeat split; [now left | exact Hs].
    - split; [reflexivity |]. right. exists f'. repeat split; [now right | exact Hs]. }
  destruct (snd (_serialize f true self)) as [s|e].
  - apply Hnext. auto.
  - destruct e; try contradiction; try (split; [reflexivity | exact I]).
    + apply Hnext. auto.
    + apply Hnext. destruct (not_ chosen); auto.
Qed.

(** A format returned by [_choose_serialize_format] is one of the formats,
    is not the empty text and substitutes. *)
Lemma chosen_substitutes (self : t) (f : string) :
  snd (_choose_serialize_format self) = Return f ->
  _choose_serialize_format self = (self, Return f)
  /\ In f (serialize_formats self)
  /\ Text.is_empty f = false
  /\ substitutes self f = true.
Proof.
  intros Hc.
  assert (_choose_serialize_format self = (self, Return f)) as Hchoose.
  { pose proof (readonly__choose_serialize_format self) as Hro.
    destruct (_choose_serialize_format self) as [self' r].
    simpl in Hro, Hc. now subst. }
  split; [exact Hchoose |].
  unfold _choose_serialize_format, bind, get_self in Hc.
  pose proof (choose_loop_general self (serialize_formats self) None) as Hloop.
  destruct (for_list (serialize_formats self) choose_round None self)
    as [self' [c|e]]; [| discriminate].
  destruct Hloop as [-> [-> | (f' & -> & Hin & Hs)]]; [discriminate |].
  unfold not_ in Hc. destruct (Text.is_empty f') eqn:Hf; [discriminate |].
  injection Hc as <-. auto.
Qed.

Lemma find_existsb {A : Type} (p : A -> bool) (l : list A) :
  existsb p l = match find p l with Some _ => true | None => false end.
Proof.
  induction l as [|a l IH]; simpl; [reflexivity |].
  now destruct (p a).
Qed.

Lemma existsb_rev {A : Type} (p : A -> bool) (l : list A) :
  existsb p (rev l) = existsb p l.
Proof.
  induction l as [|a l IH]; simpl; [reflexivity |].
  rewrite existsb_app, IH. simpl. now destruct (p a), (existsb p l).
Qed.

Lemma existsb_pointwise {A : Type} (p q : A -> bool) (l : list A) :
  (forall a, p a = q a) -> existsb p l = existsb q l.
Proof.
  intros H. induction l as [|a l IH]; simpl; [reflexivity |].
  now rewrite H, IH.
Qed.

Lemma existsb_orb {A : Type} (p q : A -> bool) (l : list A) :
  existsb (fun a => p a || q a) l = existsb p l || existsb q l.
Proof.
  induction l as [|a l IH]; simpl; [reflexivity |].
  rewrite IH. now destruct (p a), (q a), (existsb p l), (existsb q l).
Qed.

(** C1 (amended).  For formats that are non-empty texts, well-formed, and
    whose fields are bare names as in [{major}]:
    [_choose_serialize_format] tries every format and returns the last one
    that substitutes and passes the check of [_serialize]; when there is
    none, the first one that substitutes and fails the check; a format that
    misses a key is passed over.  It raises the [KeyError] "Did not find
    suitable serialization format" exactly when no format substitutes.
    [serialize] renders the chosen format and leaves the object as it is. *)
Theorem choose_serialize_format_selection (self : t) :
  forallb (fun f => negb (Text.is_empty f)) (serialize_formats self) = true ->
  forallb well_formed (serialize_formats self) = true ->
  forallb bare_fields (serialize_formats self) = true ->
  let choice :=
    match find (accepted self) (rev (serialize_formats self)) with
    | Some f => Return f
    | None =>
        match find (incomplete self) (serialize_formats self) with
        | Some f => Return f
        | None => Raise KeyError_no_suitable_format
        end
    end in
  _choose_serialize_format self = (self, choice)
  /\ serialize self =
     (self,
      match choice with
      | Return f => str_format f (merged_values self)
      | Raise e => Raise e
      end)
  /\ existsb (substitutes self) (serialize_formats self) =
     match choice with Return _ => true | Raise _ => false end
  /\ (forall f, accepted self f = substitutes self f && passes_check self f)
  /\ (forall f, incomplete self f
                = substitutes self f && negb (passes_check self f)).
Proof.
  intros Hne Hwf Hbare choice.
  assert (_choose_serialize_format self = (self, choice)) as Hchoose.
  { unfold _choose_serialize_format, bind, get_self.
    rewrite (choose_loop self _ Hne Hwf Hbare None). subst choice. simpl.
    destruct (find (accepted self) (rev (serialize_formats self))) as [f|] eqn:Ea.
    - apply find_some in Ea as [Hin _]. apply in_rev in Hin.
      rewrite forallb_forall in Hne. specialize (Hne f Hin).
      unfold not_. now destruct (Text.is_empty f).
    - destruct (find (incomplete self) (serialize_formats self)) as [f|] eqn:Ei;
        [| reflexivity].
      apply find_some in Ei as [Hin _].
      rewrite forallb_forall in Hne. specialize (Hne f Hin).
      unfold not_. now destruct (Text.is_empty f). }
  split; [exact Hchoose |]. split; [| split; [| split]].
  - unfold serialize, bind. rewrite Hchoose.
    destruct choice as [f|e]; [| reflexivity].
    rewrite _serialize_spec. simpl.
    now destruct (str_format f (merged_values self)).
  - rewrite (existsb_pointwise _ _ _ (substitutes_eq self)).
    rewrite existsb_orb, <- (existsb_rev (accepted self)), !find_existsb.
    subst choice.
    destruct (find (accepted self) (rev (serialize_formats self)));
      [reflexivity |].
    now destruct (find (incomplete self) (serialize_formats self)).
  - apply accepted_eq.
  - apply incomplete_eq.
Qed.

End Selection.

(** C1, as stated, fails.  With the parts major=1, minor=2 and patch=3 and
    the formats [{major}], [{major}.{minor}], both formats substitute and
    both fail the check.  The format chosen is the first, [{major}]: it is
    not the last format that substitutes, and a format that fails the check
    is not passed over when nothing was chosen before it. *)
Lemma choose_last_substituting_counterexample :
  find (Version.substitutes Examples.three_parts)
       (rev (Version.serialize_formats Examples.three_parts))
  = Some "{major}.{minor}"
  /\ Version.incomplete Examples.three_parts "{major}" = true
  /\ Version.incomplete Examples.three_parts "{major}.{minor}" = true
  /\ snd (Version._choose_serialize_format Examples.three_parts)
     = Return "{major}"
  /\ snd (Version._choose_serialize_format Examples.three_parts)
     <> Return "{major}.{minor}"
  /\ snd (Version.serialize Examples.three_parts) = Return "1".
Proof.
  assert (snd (Version._choose_serialize_format Examples.three_parts)
          = Return "{major}") as H by (vm_compute; reflexivity).
  repeat split; try (vm_compute; reflexivity).
  rewrite H. discriminate.
Qed.

(** The selection on the parts major=1, minor=2 with the formats
    [{major}.{minor}], [{major}]: the first is accepted, the second fails the
    check and does not replace it. *)
Lemma choose_serialize_format_selection_witness :
  forallb (fun f => negb (Text.is_empty f))
          (Version.serialize_formats Examples.two_formats) = true
  /\ forallb Version.well_formed
             (Version.serialize_formats Examples.two_formats) = true
  /\ forallb Version.bare_fields
             (Version.serialize_formats Examples.two_formats) = true
  /\ Version._choose_serialize_format Examples.two_formats
     = (Examples.two_formats, Return "{major}.{minor}")
  /\ Version.serialize Examples.two_formats
     = (Examples.two_formats, Return "1.2").
Proof.
  split; [reflexivity |]. split; [reflexivity |]. split; [reflexivity |].
  destruct (choose_serialize_format_selection Examples.two_formats
              eq_refl eq_refl eq_refl) as (H1 & H2 & _).
  rewrite H1, H2. split; f_equal; vm_compute; reflexivity.
Defined.

(** ** The check of _serialize *)

Section Check.
Import Version.

Lemma keys_fold (l : list (string * VersionPart.t)) :
  forall (found_required : bool) (keys : gset label) (x : label),
    x ∈ snd (foldl keys_step (found_required, keys) l) <->
    x ∈ keys
    \/ exists pre k p post,
         x = Some k /\ l = pre ++ (k, p) :: post
         /\ (VersionPart.is_optional p = false
             \/ (found_required = false
                 /\ forallb (fun kv => VersionPart.is_optional (snd kv)) pre = true)).
Proof.
  induction l as [|[k0 p0] l IH]; intros found_required keys x.
  - simpl. split; [auto |]. intros [H | (pre & k & p & post & _ & H & _)];
      [exact H | now destruct pre].
  - cbn [foldl]. unfold keys_step at 2.
    destruct (VersionPart.is_optional p0) eqn:Hopt; cbn [negb];
      [destruct found_required; cbn [negb] |]; rewrite IH; clear IH.
    + split.
      * intros [H | (pre & k & p & post & -> & -> & [H | [? _]])];
          [auto | | discriminate].
        right. exists ((k0, p0) :: pre), k, p, post. auto.
      * intros [H | (pre & k & p & post & -> & Hl & H)]; [auto |].
        destruct pre as [|kv pre]; simplify_eq/=.
        -- destruct H as [H | [? _]]; congruence.
        -- destruct H as [H | [? _]]; [| discriminate].
           right. exists pre, k, p, post. auto.
    + split.
      * intros [[->%elem_of_singleton | H]%elem_of_union
               | (pre & k & p & post & -> & -> & H)].
        -- right. exists [], k0, p0, l. auto.
        -- auto.
        -- right. exists ((k0, p0) :: pre), k, p, post.
           split; [reflexivity |]. split; [reflexivity |]. destruct H as [H | [_ H]]; [auto |].
           right. split; [reflexivity |]. simpl. now rewrite Hopt.
      * intros [H | (pre & k & p & post & -> & Hl & H)];
          [left; apply elem_of_union; auto |].
        destruct pre as [|kv pre]; simplify_eq/=.
        -- left. apply elem_of_union. left. now apply elem_of_singleton.
        -- right. exists pre, k, p, post. split; [reflexivity |]. split; [reflexivity |].
           destruct H as [H | [_ H]]; [auto |]. right. split; [reflexivity |].
           now destruct (VersionPart.is_optional p0).
    + split.
      * intros [[->%elem_of_singleton | H]%elem_of_union
               | (pre & k & p & post & -> & -> & [H | [? _]])];
          [| auto | | discriminate].
        -- right. exists [], k0, p0, l. auto.
        -- right. exists ((k0, p0) :: pre), k, p, post. auto.
      * intros [H | (pre & k & p & post & -> & Hl & H)];
          [left; apply elem_of_union; auto |].
        destruct pre as [|kv pre]; simplify_eq/=.
        -- left. apply elem_of_union. left. now apply elem_of_singleton.
        -- destruct H as [H | [_ H]].
           ++ right. exists pre, k, p, post. auto.
           ++ rewrite Hopt in H. discriminate.
Qed.

(** X5.  [keys_needing_representation] holds the names of the parts that are not
    optional, and of the parts that stand before the first part that is not
    optional; nothing else. *)
Lemma keys_needing_representation_spec (parsed : list (string * VersionPart.t))
    (x : label) :
  x ∈ keys_needing_representation parsed <->
  exists pre k p post,
    x = Some k /\ parsed = pre ++ (k, p) :: post
    /\ (VersionPart.is_optional p = false
        \/ forallb (fun kv => VersionPart.is_optional (snd kv)) pre = true).
Proof.
  unfold keys_needing_representation. rewrite keys_fold. split.
  - intros [H | (pre & k & p & post & Hx & Hl & H)];
      [now apply not_elem_of_empty in H |].
    exists pre, k, p, post. repeat split; try assumption.
    destruct H as [H | [_ H]]; auto.
  - intros (pre & k & p & post & Hx & Hl & H). right.
    exists pre, k, p, post. repeat split; try assumption.
    destruct H as [H | H]; auto.
Qed.

(** A format that substitutes and shows every key that needs representation
    is accepted. *)
Lemma subset_passes_check (self : t) (serialize_format : string) :
  keys_needing_representation (_parsed self)
    ⊆ required_by_format serialize_format ->
  passes_check self serialize_format = true.
Proof.
  intros Hsub. unfold passes_check.
  rewrite bool_decide_eq_false_2; [reflexivity |].
  intros [_ Hnot]. contradiction.
Qed.

End Check.

(** C2.  With the parts major=1 and minor=2 and a context that holds [build],
    the format [{major}.{build}] does not show the key [minor], which needs
    representation; [_serialize] with [raise_if_incomplete] set returns the
    text all the same, because [build] keeps the labels of the format from
    being a proper subset of the keys. *)
Theorem serialize_accepts_unrepresented_key :
  Version.keys_needing_representation (Version._parsed Examples.with_build)
    = {[ Some "major"; Some "minor" ]}
  /\ Version.required_by_format "{major}.{build}"
     = {[ Some "major"; Some "build" ]}
  /\ bool_decide
       (Version.keys_needing_representation (Version._parsed Examples.with_build)
        ⊆ Version.required_by_format "{major}.{build}") = false
  /\ snd (Version._serialize "{major}.{build}" true Examples.with_build)
     = Return "1.7"
  /\ snd (Version.serialize Examples.with_build) = Return "1.7".
Proof. repeat split; vm_compute; reflexivity. Qed.

(** ** Version.bump *)

Section Bump.
Import Version.

Lemma gen_list_yielded {A : Type} (g : gen A) :
  thrown g = None -> g = gen_list (yielded g).
Proof.
  induction g as [| a g IH | e]; simpl; intros Hg;
    [reflexivity | now rewrite <- IH | discriminate].
Qed.

Lemma for_gen_list {S A L : Type} (l : list A) (body : A -> L -> M S L) :
  forall locals s, for_gen (gen_list l) body locals s = for_list l body locals s.
Proof.
  induction l as [|a l IH]; intros locals s; simpl; [reflexivity |].
  unfold bind. destruct (body a locals s) as [s' [locals'|e]]; auto.
Qed.

Lemma for_list_app {S A L : Type} (l1 l2 : list A) (body : A -> L -> M S L) :
  forall locals s,
    for_list (l1 ++ l2) body locals s =
    bind (for_list l1 body locals) (for_list l2 body) s.
Proof.
  induction l1 as [|a l1 IH]; intros locals s; simpl.
  - reflexivity.
  - unfold bind in *. destruct (body a locals s) as [s' [locals'|e]];
      [apply IH | reflexivity].
Qed.

Lemma order_spec (self : t) (first : string) (rest : list string) :
  serialize_formats self = first :: rest ->
  order self = (self, Return (_labels_for_format first)).
Proof. intros H. unfold order, bind, get_self. now rewrite H. Qed.

Lemma well_formed_labels (first : string) :
  well_formed first = true -> thrown (_labels_for_format first) = None.
Proof.
  unfold well_formed, _labels_for_format. rewrite thrown_gen_map.
  now destruct (thrown (Formatter.parse first)).
Qed.

Lemma on_part_spec (name : string)
    (method : VersionPart.t -> result VersionPart.t) (self : t)
    (part part' : VersionPart.t) :
  odict.get (_parsed self) name = Some part ->
  method part = Return part' ->
  on_part name method self =
  (set_parsed (odict.set (_parsed self) name part') self, Return tt).
Proof.
  intros Hget Hm. unfold on_part, bind, get_self, lift, update.
  now rewrite Hget, Hm.
Qed.

(** A round that changes nothing: the label is no name, or names no part,
    or names a part other than the target before the target was bumped. *)
Lemma bump_round_skip (part_name : string) (label : label) (bumped : bool)
    (self : t) :
  match label with
  | None => True
  | Some name =>
      odict.contains (_parsed self) name = false
      \/ (name <> part_name /\ bumped = false)
  end ->
  bump_round part_name label bumped self = (self, Return bumped).
Proof.
  unfold bump_round, bind, get_self. destruct label as [name|]; [| reflexivity].
  intros [H | [Hne ->]].
  - now rewrite H.
  - destruct (odict.contains (_parsed self) name); [| reflexivity]. simpl.
    apply String.eqb_neq in Hne. now rewrite Hne.
Qed.

Lemma bump_round_target (part_name : string) (bumped : bool) (self : t)
    (p p' : VersionPart.t) :
  odict.get (_parsed self) part_name = Some p ->
  VersionPart.bump p = Return p' ->
  bump_round part_name (Some part_name) bumped self =
  (set_parsed (odict.set (_parsed self) part_name p') self, Return true).
Proof.
  intros Hget Hb. unfold bump_round, bind at 1, get_self.
  unfold odict.contains. rewrite Hget. simpl. rewrite String.eqb_refl.
  unfold bind. now rewrite (on_part_spec _ _ _ p p' Hget Hb).
Qed.

Lemma bump_round_target_raise (part_name : string) (bumped : bool) (self : t)
    (p : VersionPart.t) (e : exn) :
  odict.get (_parsed self) part_name = Some p ->
  VersionPart.bump p = Raise e ->
  bump_round part_name (Some part_name) bumped self = (self, Raise e).
Proof.
  intros Hget Hb. unfold bump_round, bind at 1, get_self.
  unfold odict.contains. rewrite Hget. simpl. rewrite String.eqb_refl.
  unfold bind, on_part, bind, get_self, lift. now rewrite Hget, Hb.
Qed.

Lemma bump_round_zero (part_name name : string) (self : t) (p : VersionPart.t) :
  name <> part_name ->
  odict.get (_parsed self) name = Some p ->
  bump_round part_name (Some name) true self =
  (set_parsed (odict.set (_parsed self) name (VersionPart.zero p)) self,
   Return true).
Proof.
  intros Hne Hget. unfold bump_round, bind at 1, get_self.
  unfold odict.contains. rewrite Hget. simpl.
  apply String.eqb_neq in Hne. rewrite Hne.
  unfold bind. now rewrite (on_part_spec _ _ _ p (VersionPart.zero p) Hget eq_refl).
Qed.

(** The loop of [bump] changes nothing and bumps nothing when the target is
    no part, or is not among the labels. *)
Lemma bump_loop_untouched (part_name : string) (self : t) (labels : list label) :
  odict.contains (_parsed self) part_name = false
  \/ Some part_name ∉ labels ->
  for_list labels (bump_round part_name) false self = (self, Return false).
Proof.
  intros H. induction labels as [|label labels IH]; [reflexivity |].
  cbn [for_list]. unfold bind. rewrite bump_round_skip.
  - apply IH. destruct H as [H|H]; [auto | right].
    intros Hin. apply H. apply elem_of_cons. now right.
  - destruct label as [name|]; [| exact I].
    destruct (String.eqb_spec name part_name) as [->|Hne]; [| auto].
    left. destruct H as [H|H]; [exact H | exfalso; apply H; apply elem_of_cons; now left].
Qed.

(** After the target was bumped: every later label that names a part sets
    that part to "0"; the names and the order of the parts stay. *)
Lemma bump_loop_zero (part_name : string) (self : t) (post : list label) :
  Some part_name ∉ post ->
  forall d : list (string * VersionPart.t),
  exists d' : list (string * VersionPart.t),
    for_list post (bump_round part_name) true (set_parsed d self)
    = (set_parsed d' self, Return true)
    /\ odict.keys d' = odict.keys d
    /\ forall name,
         odict.get d' name =
         if bool_decide (Some name ∈ post)
         then VersionPart.zero <$> odict.get d name
         else odict.get d name.
Proof.
  induction post as [|label post IH]; intros Hpost d.
  - exists d. split; [reflexivity |]. split; [reflexivity |]. intros name.
    rewrite bool_decide_eq_false_2; [reflexivity | apply not_elem_of_nil].
  - apply not_elem_of_cons in Hpost as [Hlabel Hpost'].
    assert (forall d1 : list (string * VersionPart.t),
              bump_round part_name label true (set_parsed d self)
              = (set_parsed d1 self, Return true) ->
              odict.keys d1 = odict.keys d ->
              (forall name,
                  odict.get d1 name =
                  if bool_decide (label = Some name)
                  then VersionPart.zero <$> odict.get d name
                  else odict.get d name) ->
              exists d',
                for_list (label :: post) (bump_round part_name) true
                         (set_parsed d self)
                = (set_parsed d' self, Return true)
                /\ odict.keys d' = odict.keys d
                /\ forall name,
                     odict.get d' name =
                     if bool_decide (Some name ∈ label :: post)
                     then VersionPart.zero <$> odict.get d name
                     else odict.get d name) as Hstep.
    { intros d1 Hround Hkeys Hget.
      destruct (IH Hpost' d1) as (d' & Hloop & Hkeys' & Hget').
      exists d'. split; [| split].
      - cbn [for_list]. unfold bind. rewrite Hround. exact Hloop.
      - congruence.
      - intros name. rewrite Hget', Hget.
        destruct (decide (label = Some name)) as [->|Hl].
        + rewrite (bool_decide_eq_true_2 (Some name = Some name)) by reflexivity.
          rewrite (bool_decide_eq_true_2 (_ ∈ _ :: _)) by (apply elem_of_cons; now left).
          destruct (bool_decide (Some name ∈ post)); [| reflexivity].
          now destruct (odict.get d name).
        + rewrite (bool_decide_eq_false_2 (label = Some name)) by assumption.
          destruct (decide (Some name ∈ post)) as [Hin|Hin].
          * rewrite (bool_decide_eq_true_2 _ Hin).
            now rewrite (bool_decide_eq_true_2 (_ ∈ _ :: _))
              by (apply elem_of_cons; now right).
          * rewrite (bool_decide_eq_false_2 _ Hin).
            rewrite (bool_decide_eq_false_2 (_ ∈ _ :: _)); [reflexivity |].
            apply not_elem_of_cons. split; congruence. }
    destruct label as [name|].
    + destruct (odict.get d name) as [p|] eqn:Hget.
      * apply (Hstep (odict.set d name (VersionPart.zero p))).
        -- rewrite (bump_round_zero part_name name (set_parsed d self) p);
             [reflexivity | congruence | exact Hget].
        -- apply odict_keys_set. unfold odict.contains. now rewrite Hget.
        -- intros name'. destruct (decide (Some name = Some name')) as [E|E].
           ++ injection E as <-. rewrite bool_decide_eq_true_2 by reflexivity.
              now rewrite odict_get_set_eq, Hget.
           ++ rewrite bool_decide_eq_false_2 by assumption.
              apply odict_get_set_ne. congruence.
      * apply (Hstep d).
        -- apply bump_round_skip. left. cbn. unfold odict.contains.
           now rewrite Hget.
        -- reflexivity.
        -- intros name'. destruct (decide (Some name = Some name')) as [E|E].
           ++ injection E as <-. rewrite bool_decide_eq_true_2 by reflexivity.
              now rewrite Hget.
           ++ now rewrite bool_decide_eq_false_2 by assumption.
    + apply (Hstep d).
      * now apply bump_round_skip.
      * reflexivity.
      * intros name'. now rewrite bool_decide_eq_false_2 by discriminate.
Qed.

(** The loop of [bump] over the labels as the scanner yields them: when the
    target is no part, or is not among the labels, the object is left as it
    is, and the loop ends as the scanner does. *)
Lemma bump_gen_untouched (part_name : string) (self : t) (labels : gen label) :
  odict.contains (_parsed self) part_name = false
  \/ Some part_name ∉ yielded labels ->
  for_gen labels (bump_round part_name) false self =
  (self,
   match thrown labels with
   | None => Return false
   | Some e => Raise e
   end).
Proof.
  induction labels as [| a labels IH | e]; cbn [yielded thrown for_gen];
    intros H; [reflexivity | | reflexivity].
  unfold bind. rewrite bump_round_skip.
  - apply IH. destruct H as [H|H]; [auto | right].
    intros Hin. apply H. apply elem_of_cons. now right.
  - destruct a as [name|]; [| exact I].
    destruct H as [H|H].
    + destruct (String.eqb_spec name part_name) as [->|Hne]; [now left |].
      right. now split.
    + right. split; [| reflexivity]. intros ->. apply H.
      apply elem_of_cons. now left.
Qed.

Lemma bump_gen_outcome (part_name : string) (self : t) :
  (match serialize_formats self with
   | [] => True
   | first :: _ =>
       odict.contains (_parsed self) part_name = false
       \/ Some part_name ∉ yielded (_labels_for_format first)
   end) ->
  bump part_name self =
  (self,
   match serialize_formats self with
   | [] => Raise IndexError
   | first :: _ =>
       match thrown (_labels_for_format first) with
       | None => Return tt
       | Some e => Raise e
       end
   end).
Proof.
  intros H. unfold bump. unfold bind at 1. unfold order, bind, get_self.
  destruct (serialize_formats self) as [|first rest]; [reflexivity |].
  cbn [ret]. rewrite (bump_gen_untouched _ _ _ H).
  now destruct (thrown (_labels_for_format first)).
Qed.

(** C6 (amended).  When [part_name] names no parsed part (as when nothing
    was parsed at all), [bump(part_name)] changes no part: the object is the
    same after the call.  The call returns normally when there is a first
    format and it is well-formed; without any format it raises the
    [IndexError] of [serialize_formats[0]], and on a first format that the
    scanner refuses with a [ValueError] it raises that [ValueError]. *)
Theorem bump_absent_part_is_noop (part_name : string) (self : t) :
  odict.contains (_parsed self) part_name = false ->
  fst (bump part_name self) = self
  /\ match serialize_formats self with
     | [] => snd (bump part_name self) = Raise IndexError
     | first :: _ =>
         (well_formed first = true -> snd (bump part_name self) = Return tt)
         /\ (thrown (_labels_for_format first) = Some ValueError ->
             snd (bump part_name self) = Raise ValueError)
     end.
Proof.
  intros H. rewrite bump_gen_outcome.
  2:{ destruct (serialize_formats self); [exact I | now left]. }
  split; [reflexivity |]. cbn [snd].
  destruct (serialize_formats self) as [|first rest]; [reflexivity |].
  split.
  - intros Hw. now rewrite (well_formed_labels _ Hw).
  - now intros ->.
Qed.

(** "1.4.9" is parsed, no part is named [build], and [bump("build")] is a
    no-op. *)
Lemma bump_absent_part_is_noop_witness :
  odict.contains (Version._parsed Examples.default_1_4_9) "build" = false
  /\ bump "build" Examples.default_1_4_9
     = (Examples.default_1_4_9, Return tt).
Proof.
  split; [reflexivity |].
  destruct (bump_absent_part_is_noop "build" Examples.default_1_4_9 eq_refl)
    as [Hfst [Hsnd _]].
  specialize (Hsnd eq_refl).
  destruct (bump "build" Examples.default_1_4_9) as [self r].
  cbn [fst snd] in Hfst, Hsnd. now subst.
Defined.

(** C6, as stated, fails.  With "1.4.9" parsed and the first format
    [{major!rx}.{minor}], no part is named [nope], and [bump("nope")] raises
    the [ValueError] of the scanner, which expects a colon after the
    conversion: the call is no silent no-op. *)
Lemma bump_absent_part_counterexample :
  odict.contains (Version._parsed Examples.bad_conversion) "nope" = false
  /\ bump "nope" Examples.bad_conversion
     = (Examples.bad_conversion, Raise ValueError)
  /\ snd (bump "nope" Examples.bad_conversion) <> Return tt.
Proof.
  assert (bump "nope" Examples.bad_conversion
          = (Examples.bad_conversion, Raise ValueError)) as H
    by (vm_compute; reflexivity).
  split; [reflexivity |]. split; [exact H |]. rewrite H. discriminate.
Qed.

(** C10 (amended).  When [part_name] is not the name of a field of the
    first format, [bump(part_name)] changes no part, also when a parsed part
    has that name: the loop only visits the labels of the first format.  The
    call returns normally when the first format is well-formed; when the
    scanner refuses the first format with a [ValueError], the call raises
    it, here for a [part_name] that is no field before the place where the
    scanner stops. *)
Theorem bump_outside_first_format_is_noop (part_name : string) (self : t)
    (first : string) (rest : list string) :
  serialize_formats self = first :: rest ->
  Some part_name ∉ yielded (_labels_for_format first) ->
  (well_formed first = true -> bump part_name self = (self, Return tt))
  /\ (thrown (_labels_for_format first) = Some ValueError ->
      bump part_name self = (self, Raise ValueError)).
Proof.
  intros Hf H. rewrite bump_gen_outcome; rewrite Hf; [| now right].
  split.
  - intros Hw. now rewrite (well_formed_labels _ Hw).
  - now intros ->.
Qed.

(** The part [patch] is parsed, the first format is [{major}.{minor}], and
    [bump("patch")] is a no-op. *)
Lemma bump_outside_first_format_is_noop_witness :
  odict.contains (Version._parsed Examples.short_format) "patch" = true
  /\ bump "patch" Examples.short_format = (Examples.short_format, Return tt).
Proof.
  split; [reflexivity |].
  apply (bump_outside_first_format_is_noop "patch" Examples.short_format
           "{major}.{minor}" []); [reflexivity | | reflexivity].
  apply (bool_decide_unpack _). vm_compute. exact I.
Defined.

(** C10, as stated, fails.  With "1.4.9" parsed and the first format
    [{major!rx}.{minor}], [patch] is no field of that format, and
    [bump("patch")] raises the [ValueError] of the scanner. *)
Lemma bump_outside_first_format_counterexample :
  Version.serialize_formats Examples.bad_conversion = ["{major!rx}.{minor}"]
  /\ (Some "patch" ∉ yielded (_labels_for_format "{major!rx}.{minor}"))
  /\ odict.contains (Version._parsed Examples.bad_conversion) "patch" = true
  /\ bump "patch" Examples.bad_conversion
     = (Examples.bad_conversion, Raise ValueError)
  /\ snd (bump "patch" Examples.bad_conversion) <> Return tt.
Proof.
  assert (bump "patch" Examples.bad_conversion
          = (Examples.bad_conversion, Raise ValueError)) as H
    by (vm_compute; reflexivity).
  split; [reflexivity |]. split.
  { apply (bool_decide_unpack _). vm_compute. exact I. }
  split; [reflexivity |]. split; [exact H |]. rewrite H. discriminate.
Qed.

(** C3 (amended).  When the field [part_name] occurs exactly once in the
    first format, which is well-formed, [bump(part_name)] on an object with a
    part of that name does what bumping that part does.  If that raises, the
    exception leaves [bump] and no part has changed.  Otherwise [bump]
    returns normally and leaves: that part bumped; every part whose name is a
    field after [part_name] in the first format at "0"; every other part,
    named before it or nowhere in the first format, as it was.  The names of
    the parts and their order stay, and so does the rest of the object. *)
Theorem bump_cascade (part_name : string) (self : t) (first : string)
    (rest : list string) (pre post : list label) (p : VersionPart.t) :
  serialize_formats self = first :: rest ->
  well_formed first = true ->
  yielded (_labels_for_format first) = pre ++ Some part_name :: post ->
  Some part_name ∉ pre ->
  Some part_name ∉ post ->
  odict.get (_parsed self) part_name = Some p ->
  match VersionPart.bump p with
  | Raise e => bump part_name self = (self, Raise e)
  | Return p' =>
      snd (bump part_name self) = Return tt
      /\ fst (bump part_name self)
         = set_parsed (_parsed (fst (bump part_name self))) self
      /\ odict.keys (_parsed (fst (bump part_name self)))
         = odict.keys (_parsed self)
      /\ forall name,
           odict.get (_parsed (fst (bump part_name self))) name =
           if String.eqb name part_name then Some p'
           else if bool_decide (Some name ∈ post)
                then VersionPart.zero <$> odict.get (_parsed self) name
                else odict.get (_parsed self) name
  end.
Proof.
  intros Hf Hw Hy Hpre Hpost Hget.
  assert (bump part_name self =
          bind (bind (bump_round part_name (Some part_name) false)
                     (for_list post (bump_round part_name)))
               (fun _ => ret tt) self) as Hbump.
  { unfold bump. unfold bind at 1. rewrite (order_spec _ _ _ Hf).
    unfold bind at 1. rewrite (gen_list_yielded _ (well_formed_labels _ Hw)).
    rewrite for_gen_list, Hy, for_list_app. unfold bind at 1.
    rewrite bump_loop_untouched by now right. reflexivity. }
  destruct (VersionPart.bump p) as [p'|e] eqn:Hb.
  - destruct (bump_loop_zero part_name self post Hpost
                (odict.set (_parsed self) part_name p'))
      as (d' & Hloop & Hkeys & Hd').
    assert (bump part_name self = (set_parsed d' self, Return tt)) as ->.
    { rewrite Hbump. unfold bind.
      rewrite (bump_round_target _ _ _ p p' Hget Hb). now rewrite Hloop. }
    cbn [fst snd _parsed set_parsed].
    split; [reflexivity |]. split; [reflexivity |]. split.
    + rewrite Hkeys. apply odict_keys_set. unfold odict.contains. now rewrite Hget.
    + intros name. rewrite Hd'.
      destruct (String.eqb_spec name part_name) as [->|Hne].
      * rewrite bool_decide_eq_false_2 by assumption. apply odict_get_set_eq.
      * rewrite odict_get_set_ne by congruence. reflexivity.
  - rewrite Hbump. unfold bind.
    now rewrite (bump_round_target_raise _ _ _ p e Hget Hb).
Qed.

(** Bumping [minor] on major=1, minor=4, patch=9 gives major=1, minor=5,
    patch=0. *)
Lemma bump_cascade_witness :
  snd (bump "minor" Examples.default_1_4_9) = Return tt
  /\ odict.get (_parsed (fst (bump "minor" Examples.default_1_4_9))) "major"
     = Some {| VersionPart._value := Some "1" |}
  /\ odict.get (_parsed (fst (bump "minor" Examples.default_1_4_9))) "minor"
     = Some {| VersionPart._value := Some "5" |}
  /\ odict.get (_parsed (fst (bump "minor" Examples.default_1_4_9))) "patch"
     = Some {| VersionPart._value := Some "0" |}.
Proof.
  assert (Some "minor" ∉ [Some "major"]) as Hpre
    by (apply (bool_decide_unpack _); vm_compute; exact I).
  assert (Some "minor" ∉ [Some "patch"]) as Hpost
    by (apply (bool_decide_unpack _); vm_compute; exact I).
  pose proof (bump_cascade "minor" Examples.default_1_4_9
                "{major}.{minor}.{patch}" [] [Some "major"] [Some "patch"]
                {| VersionPart._value := Some "4" |}
                eq_refl eq_refl eq_refl Hpre Hpost eq_refl) as H.
  change (VersionPart.bump {| VersionPart._value := Some "4" |})
    with (Return {| VersionPart._value := Some "5" |}) in H.
  destruct H as (H1 & _ & _ & H2).
  split; [exact H1 |]. rewrite !H2. repeat split.
Defined.

(** C3, as stated, fails: a part that is parsed but is no field of the first
    format is not bumped.  With "1.4.9" parsed and the first format
    [{major}.{minor}], [bump("patch")] leaves the part [patch] at "9", where
    bumping that part gives "10". *)
Lemma bump_parsed_part_counterexample :
  odict.get (Version._parsed Examples.short_format) "patch"
    = Some {| VersionPart._value := Some "9" |}
  /\ VersionPart.bump {| VersionPart._value := Some "9" |}
     = Return {| VersionPart._value := Some "10" |}
  /\ odict.get (_parsed (fst (bump "patch" Examples.short_format))) "patch"
     = Some {| VersionPart._value := Some "9" |}
  /\ odict.get (_parsed (fst (bump "patch" Examples.short_format))) "patch"
     <> Some {| VersionPart._value := Some "10" |}.
Proof.
  assert (odict.get (_parsed (fst (bump "patch" Examples.short_format))) "patch"
          = Some {| VersionPart._value := Some "9" |}) as H
    by (vm_compute; reflexivity).
  repeat split; try (vm_compute; reflexivity).
  rewrite H. discriminate.
Qed.

(** Bumping [minor] on "1.4.9" with the default pattern and format. *)
Example bump_minor_1_4_9 :
  Version._parsed (fst (bump "minor" Examples.default_1_4_9)) =
  [("major", {| VersionPart._value := Some "1" |});
   ("minor", {| VersionPart._value := Some "5" |});
   ("patch", {| VersionPart._value := Some "0" |})].
Proof. vm_compute. reflexivity. Qed.

End Bump.

(** ** Version.parse *)

Section Parse.
Import Version.

Lemma parse_loop (self : t) (items : list (string * option string)) :
  NoDup (map fst items) ->
  forall acc : list (string * VersionPart.t),
    (forall k, In k (map fst items) -> odict.contains acc k = false) ->
    for_list items
      (fun '(key, value) _ =>
         update (fun self =>
           set_parsed
             (odict.set (_parsed self) key {| VersionPart._value := value |})
             self))
      tt (set_parsed acc self)
    = (set_parsed (acc ++ map part_of_group items) self, Return tt).
Proof.
  induction items as [|[key value] items IH]; intros Hnd acc Hfresh.
  - simpl. now rewrite app_nil_r.
  - apply NoDup_cons in Hnd as [Hkey Hnd].
    cbn [for_list]. unfold bind, update. cbn [_parsed set_parsed].
    rewrite odict_set_fresh by (apply Hfresh; now left).
    change (set_parsed ?d (set_parsed ?d0 self)) with (set_parsed d self).
    rewrite IH; [| exact Hnd |].
    + now rewrite <- app_assoc.
    + intros k Hk. unfold odict.contains. rewrite odict_get_app.
      specialize (Hfresh k (or_intror Hk)). unfold odict.contains in Hfresh.
      destruct (odict.get acc k); [discriminate |]. simpl.
      destruct (String.eqb_spec k key) as [->|Hne]; [| reflexivity].
      exfalso. apply Hkey. now apply list_elem_of_In.
Qed.

Lemma groupdict_keys (p : re.Pattern) (m : re.Match) :
  map fst (re.groupdict p m) = map fst (re.groupindex p).
Proof.
  unfold re.groupdict. rewrite map_map. apply map_ext. now intros [name n].
Qed.

(** [parse] in one equation. *)
Lemma parse_spec (self : t) (version_string : string) :
  NoDup (map fst (re.groupindex (parse_regex self))) ->
  parse version_string self =
  (set_parsed
     match re.search (parse_regex self) version_string with
     | None => []
     | Some m => map part_of_group (re.groupdict (parse_regex self) m)
     end self,
   Return tt).
Proof.
  intros Hnd. unfold parse, bind, get_self, update.
  destruct (re.search (parse_regex self) version_string) as [m|]; [| reflexivity].
  rewrite parse_loop; [reflexivity | now rewrite groupdict_keys | reflexivity].
Qed.




End Parse.

(** ** parse, then serialize *)

Section RoundTrip.
Import Version.






End RoundTrip.

(** ** The examples of the specification *)

(** The part [label] is absent: the format with [{label}] misses a key and
    the second format is chosen. *)
Example serialize_label_absent :
  Examples.parse_bump_serialize
    (Examples.new Examples.default_parse
       ["{major}.{minor}.{patch}-{label}"; "{major}.{minor}.{patch}"] ∅)
    "1.4.9" "minor"
  = Return "1.5.0".
Proof. vm_compute. reflexivity. Qed.

(** The part [label] is present and not optional: the later format, which
    shows it, is chosen. *)
Example serialize_label_present :
  Examples.parse_bump_serialize
    (Examples.new Examples.with_label
       ["{major}.{minor}.{patch}"; "{major}.{minor}.{patch}-{label}"] ∅)
    "1.4.9-rc1" "minor"
  = Return "1.5.0-rc1".
Proof. vm_compute. reflexivity. Qed.

(** Nothing is parsed: [bump] does nothing and [serialize] finds no format. *)
Example serialize_nothing_parsed :
  Examples.parse_bump_serialize
    (Examples.new Examples.default_parse ["{major}.{minor}.{patch}"] ∅)
    "nothing" "minor"
  = Raise KeyError_no_suitable_format.
Proof. vm_compute. reflexivity. Qed.

(** * Further properties *)

(** ** Decimal numerals: [str] and [int] *)

(** [pretty_N_go x s] puts the digits of [x] in front of [s]. *)
Lemma pretty_N_go_digits (x : N) :
  forall s : string,
  exists d : string,
    pretty_N_go x s = d +:+ s
    /\ Text.all Text.isdigit d = true
    /\ ((0 < x)%N -> Text.is_empty d = false).
Proof.
  induction (N.lt_wf_0 x) as [x _ IH]; intros s.
  destruct (decide (0 < x)%N) as [Hx|Hx].
  - rewrite pretty_N_go_step by assumption.
    destruct (IH (x `div` 10)%N (N.div_lt x 10 Hx eq_refl)
                 (String (pretty_N_char (x `mod` 10)) s)) as (d & -> & Hd & _).
    exists (d +:+ String (pretty_N_char (x `mod` 10)) EmptyString).
    split; [now rewrite append_assoc |]. split.
    + rewrite all_app, Hd. simpl.
      assert (x `mod` 10 < 10)%N as Hm by (apply N.mod_lt; lia).
      destruct (x `mod` 10)%N as [|q]; [reflexivity |].
      do 4 (destruct q as [q|q|]; try reflexivity); lia.
    + intros _. now destruct d.
  - assert (x = 0%N) as -> by lia. exists EmptyString.
    rewrite pretty_N_go_0. repeat split. intros H. lia.
Qed.

Lemma str_digits (n : N) :
  Text.all Text.isdigit (Text.str n) = true
  /\ Text.is_empty (Text.str n) = false.
Proof.
  unfold Text.str, pretty, pretty_N. destruct (decide (n = 0%N)) as [->|Hn].
  - split; reflexivity.
  - destruct (pretty_N_go_digits n EmptyString) as (d & -> & Hd & Hne).
    rewrite append_empty_r. split; [exact Hd | apply Hne; lia].
Qed.

Lemma int_int_from (s : string) : Text.int s = Numeral.int_from 0 s.
Proof. reflexivity. Qed.

Lemma digit_value_pretty_N_char (m : N) :
  (m < 10)%N -> Text.digit_value (pretty_N_char m) = m.
Proof.
  intros Hm. destruct m as [|q]; [reflexivity |].
  do 4 (destruct q as [q|q|]; try reflexivity); lia.
Qed.

Lemma int_from_pretty_N_go (x : N) :
  forall s : string,
    Numeral.int_from 0 (pretty_N_go x s) = Numeral.int_from x s.
Proof.
  induction (N.lt_wf_0 x) as [x _ IH]; intros s.
  destruct (decide (0 < x)%N) as [Hx|Hx].
  - rewrite pretty_N_go_step by assumption.
    rewrite IH by (now apply N.div_lt). cbn [Numeral.int_from].
    rewrite digit_value_pretty_N_char by (apply N.mod_lt; lia).
    f_equal. rewrite (N.div_mod x 10) at 3 by lia. reflexivity.
  - assert (x = 0%N) as -> by lia. now rewrite pretty_N_go_0.
Qed.

(** [int(str(n)) == n] *)
Lemma int_str (n : N) : Text.int (Text.str n) = n.
Proof.
  rewrite int_int_from. unfold Text.str, pretty, pretty_N.
  destruct (decide (n = 0%N)) as [->|Hn]; [reflexivity |].
  now rewrite int_from_pretty_N_go.
Qed.

(** ** VersionPart.bump, continued *)

(** X3.  A part that holds the decimal numeral of [n] holds the numeral of [n + 1]
    after [bump]. *)
Theorem VersionPart_bump_number (n : N) :
  VersionPart.bump {| VersionPart._value := Some (Text.str n) |} =
  Return {| VersionPart._value := Some (Text.str (n + 1)) |}.
Proof.
  destruct (str_digits n) as [Hd Hne].
  rewrite VersionPart_bump_spec. cbv zeta.
  assert (VersionPart.value {| VersionPart._value := Some (Text.str n) |}
          = Text.str n) as ->
    by (unfold VersionPart.value; cbn [VersionPart._value]; now rewrite Hne).
  pose proof (int_str n) as Hint.
  destruct (Text.str n) as [|c d] eqn:Hs; [discriminate |].
  pose proof Hd as Hall. apply all_cons in Hd as [Hc Hd].
  assert (Text.notdigit c = false) as Hnc by (unfold Text.notdigit; now rewrite Hc).
  cbn [Text.all Text.take_while Text.drop_while]. rewrite Hnc. cbn [andb].
  rewrite (take_while_all_id _ _ Hall), (drop_while_all _ _ Hall), Hint.
  cbn [Text.take_while]. now rewrite append_nil, append_empty_r.
Qed.

(** X4.  What [bump] returns is never optional and has a digit: it can be bumped
    again, and it counts as a part that needs representation. *)
Theorem VersionPart_bump_result (p p' : VersionPart.t) :
  VersionPart.bump p = Return p' ->
  VersionPart.is_optional p' = false
  /\ Text.all Text.notdigit (VersionPart.value p') = false
  /\ exists p'', VersionPart.bump p' = Return p''.
Proof.
  intros Hb. rewrite VersionPart_bump_spec in Hb. cbv zeta in Hb.
  destruct (Text.all Text.notdigit (VersionPart.value p)); [discriminate |].
  injection Hb as <-.
  set (part_prefix := Text.take_while Text.notdigit (VersionPart.value p)).
  set (k := (Text.int _ + 1)%N). set (part_suffix := Text.take_while _ _).
  destruct (str_digits k) as [Hd Hne].
  assert (Text.all Text.notdigit part_prefix = true) as Hp
    by apply take_while_all.
  destruct (Text.str k) as [|c d] eqn:Hk; [discriminate |].
  apply all_cons in Hd as [Hc Hd].
  assert (VersionPart.value
            {| VersionPart._value :=
                 Some (part_prefix +:+ String c d +:+ part_suffix) |}
          = part_prefix +:+ String c d +:+ part_suffix) as Hv.
  { unfold VersionPart.value. cbn [VersionPart._value].
    now destruct part_prefix. }
  assert (Text.all Text.notdigit
            (part_prefix +:+ String c d +:+ part_suffix) = false) as Hdigit.
  { rewrite all_app, all_app. simpl. unfold Text.notdigit at 2. rewrite Hc.
    simpl. now destruct (Text.all Text.notdigit part_prefix). }
  split; [| split].
  - unfold VersionPart.is_optional. rewrite Hv. apply String.eqb_neq.
    destruct part_prefix as [|c0 pre].
    + rewrite append_nil, append_cons. intros [= -> Hrest].
      destruct d; [| discriminate].
      assert (k = 0%N) as Hk0 by (apply (inj pretty); exact Hk).
      subst k. lia.
    + rewrite append_cons. intros [= -> Hrest].
      apply all_cons in Hp as [Hc0 _]. discriminate.
  - now rewrite Hv.
  - rewrite VersionPart_bump_spec. cbv zeta. rewrite Hv, Hdigit. eauto.
Qed.

(** Bumping the part "9" gives "10", which is not optional and is bumped to
    "11". *)
Lemma VersionPart_bump_result_witness :
  VersionPart.is_optional {| VersionPart._value := Some "10" |} = false
  /\ Text.all Text.notdigit
       (VersionPart.value {| VersionPart._value := Some "10" |}) = false
  /\ exists p'',
       VersionPart.bump {| VersionPart._value := Some "10" |} = Return p''.
Proof.
  exact (VersionPart_bump_result {| VersionPart._value := Some "9" |}
           {| VersionPart._value := Some "10" |} eq_refl).
Defined.

(** ** serialize: what it can raise, and what it chooses *)

Section SerializeOutcome.
Import Version.

(** X6.  With formats whose fields are bare names as in [{major}], a format
    returned by [_choose_serialize_format] is one of the formats, is not the
    empty text and substitutes; [serialize] then returns its rendering. *)
Theorem chosen_format_sound (self : t) (f : string) :
  forallb bare_fields (serialize_formats self) = true ->
  snd (_choose_serialize_format self) = Return f ->
  In f (serialize_formats self)
  /\ Text.is_empty f = false
  /\ exists s,
       str_format f (merged_values self) = Return s
       /\ serialize self = (self, Return s).
Proof.
  intros _ Hc.
  destruct (chosen_substitutes self f Hc) as (Hchoose & Hin & Hf & Hs).
  split; [exact Hin |]. split; [exact Hf |].
  unfold substitutes in Hs.
  destruct (str_format f (merged_values self)) as [s|] eqn:Es; [| discriminate].
  exists s. split; [reflexivity |].
  unfold serialize, bind. rewrite Hchoose, _serialize_spec. now rewrite Es.
Qed.

(** The formats [{major}.{minor}] and [{major}] on the parts of "1.2": the
    first one is chosen. *)
Lemma chosen_format_sound_witness :
  In "{major}.{minor}" (serialize_formats Examples.two_formats)
  /\ Text.is_empty "{major}.{minor}" = false
  /\ exists s,
       str_format "{major}.{minor}" (merged_values Examples.two_formats)
       = Return s
       /\ serialize Examples.two_formats = (Examples.two_formats, Return s).
Proof.
  apply (chosen_format_sound Examples.two_formats "{major}.{minor}");
    vm_compute; reflexivity.
Defined.

(** On well-formed formats of bare names the loop of
    [_choose_serialize_format] always returns. *)
Lemma choose_loop_returns (self : t) (fmts : list string) :
  forallb well_formed fmts = true ->
  forallb bare_fields fmts = true ->
  forall chosen : option string,
    exists c, for_list fmts choose_round chosen self = (self, Return c).
Proof.
  induction fmts as [|f fmts IH]; intros Hwf Hbare chosen; [simpl; eauto |].
  simpl in Hwf, Hbare.
  apply andb_prop in Hwf as [Hw Hwf]. apply andb_prop in Hbare as [Hb Hbare].
  cbn [for_list]. unfold bind. rewrite choose_round_spec.
  pose proof (well_formed_outcome self f Hw Hb) as Hout.
  destruct (snd (_serialize f true self)) as [s|e]; [now apply IH |].
  destruct e; try contradiction; now apply IH.
Qed.

(** X7.  With well-formed formats whose fields are bare names as in
    [{major}], [serialize] returns or raises the [KeyError] "Did not find
    suitable serialization format": an
    [IncompleteVersionRepresenationException] never leaves it, nor does the
    [KeyError] of a missing key. *)
Theorem serialize_exceptions (self : t) :
  forallb well_formed (serialize_formats self) = true ->
  forallb bare_fields (serialize_formats self) = true ->
  match snd (serialize self) with
  | Return _ | Raise KeyError_no_suitable_format => True
  | Raise _ => False
  end.
Proof.
  intros Hwf Hbare. unfold serialize, bind.
  unfold _choose_serialize_format, bind, get_self.
  pose proof (choose_loop_general self (serialize_formats self) None) as Hloop.
  destruct (choose_loop_returns self _ Hwf Hbare None) as [c Hc].
  rewrite Hc in Hloop |- *.
  destruct Hloop as [_ [-> | (f & -> & _ & Hs)]]; [exact I |].
  destruct (not_ (Some f)); [exact I |].
  cbn [ret]. rewrite _serialize_spec. cbn [snd andb].
  unfold substitutes in Hs.
  now destruct (str_format f (merged_values self)).
Qed.

(** The format [{major}.{minor}.{patch}-{label}] misses a key on the parts
    of "1.4.9", and [serialize] raises the [KeyError] of the selection. *)
Lemma serialize_exceptions_witness :
  match
    snd (serialize
           (Examples.parsed
              (Examples.new Examples.default_parse
                 ["{major}.{minor}.{patch}-{label}"] ∅) "1.4.9"))
  with
  | Return _ | Raise KeyError_no_suitable_format => True
  | Raise _ => False
  end.
Proof.
  exact (serialize_exceptions
           (Examples.parsed
              (Examples.new Examples.default_parse
                 ["{major}.{minor}.{patch}-{label}"] ∅) "1.4.9")
           eq_refl eq_refl).
Defined.

End SerializeOutcome.

(** ** bump and parse: what they keep *)

Section Keep.
Import Version.

Lemma set_parsed_id (self : t) : set_parsed (_parsed self) self = self.
Proof. now destruct self. Qed.

(** One round of the loop of [bump] replaces the value of at most one part:
    the names of the parts, their order and the rest of the object stay,
    whether the round returns or raises. *)
Lemma bump_round_keeps (part_name : string) (label : label) (bumped : bool)
    (self : t) (d : list (string * VersionPart.t)) :
  exists d' r,
    bump_round part_name label bumped (set_parsed d self)
    = (set_parsed d' self, r)
    /\ odict.keys d' = odict.keys d.
Proof.
  assert (forall name method,
            exists d' r,
              on_part name method (set_parsed d self) = (set_parsed d' self, r)
              /\ odict.keys d' = odict.keys d) as Hon.
  { intros name method. unfold on_part, bind, get_self, lift, update.
    cbn [_parsed set_parsed].
    destruct (odict.get d name) as [part|] eqn:Hget; [| exists d; eauto].
    destruct (method part) as [part'|e]; [| exists d; eauto].
    exists (odict.set d name part'), (Return tt). split; [reflexivity |].
    apply odict_keys_set. unfold odict.contains. now rewrite Hget. }
  unfold bump_round, bind at 1, get_self. cbn [_parsed set_parsed].
  destruct label as [name|]; [| exists d; eauto].
  destruct (odict.contains d name); cbn [negb]; [| exists d; eauto].
  destruct (String.eqb name part_name).
  - destruct (Hon part_name VersionPart.bump) as (d' & r & E & Hk).
    unfold bind. rewrite E. destruct r; exists d'; eauto.
  - destruct bumped; [| exists d; eauto].
    destruct (Hon name (fun p => Return (VersionPart.zero p)))
      as (d' & r & E & Hk).
    unfold bind. rewrite E. destruct r; exists d'; eauto.
Qed.

Lemma bump_loop_keeps (part_name : string) (self : t) (labels : gen label) :
  forall (bumped : bool) (d : list (string * VersionPart.t)),
  exists d' r,
    for_gen labels (bump_round part_name) bumped (set_parsed d self)
    = (set_parsed d' self, r)
    /\ odict.keys d' = odict.keys d.
Proof.
  induction labels as [| label labels IH | e]; intros bumped d;
    [exists d; eauto | | exists d; eauto].
  cbn [for_gen]. unfold bind.
  destruct (bump_round_keeps part_name label bumped self d)
    as (d1 & r1 & -> & Hk1).
  destruct r1 as [bumped'|e]; [| exists d1; eauto].
  destruct (IH bumped' d1) as (d' & r & -> & Hk).
  exists d', r. split; [reflexivity | congruence].
Qed.

Lemma bump_state (part_name : string) (self : t) :
  exists d' r,
    bump part_name self = (set_parsed d' self, r)
    /\ odict.keys d' = odict.keys (_parsed self).
Proof.
  unfold bump, bind at 1, order, bind at 1, get_self.
  destruct (serialize_formats self) as [|first rest];
    [exists (_parsed self), (Raise IndexError);
     now rewrite set_parsed_id |].
  cbn [ret]. unfold bind.
  destruct (bump_loop_keeps part_name self (_labels_for_format first) false
              (_parsed self)) as (d' & r & E & Hk).
  rewrite set_parsed_id in E. rewrite E.
  destruct r; exists d'; eauto.
Qed.

Lemma bump_keeps_names_aux (part_name : string) (self : t) :
  odict.keys (_parsed (fst (bump part_name self))) = odict.keys (_parsed self)
  /\ parse_regex (fst (bump part_name self)) = parse_regex self
  /\ serialize_formats (fst (bump part_name self)) = serialize_formats self
  /\ context (fst (bump part_name self)) = context self.
Proof.
  destruct (bump_state part_name self) as (d' & r & -> & Hk).
  cbn [fst]. repeat split. exact Hk.
Qed.

(** X9.  Whatever [bump] is asked and however it ends, it adds no part, removes
    none and reorders none, and it leaves the pattern, the formats and the
    context of the object alone. *)
Theorem bump_keeps_names (part_name : string) (self : t) :
  odict.keys (_parsed (fst (bump part_name self))) = odict.keys (_parsed self)
  /\ fst (bump part_name self)
     = set_parsed (_parsed (fst (bump part_name self))) self.
Proof.
  destruct (bump_state part_name self) as (d' & r & E & Hk).
  split; now rewrite E.
Qed.

(** X13.  [parse] starts from no parts: what an earlier [parse] left does not
    show in the result. *)
Theorem parse_forgets (self : t) (earlier version_string : string) :
  NoDup (map fst (re.groupindex (parse_regex self))) ->
  parse version_string (fst (parse earlier self)) = parse version_string self.
Proof.
  intros Hnd. rewrite (parse_spec self earlier Hnd). cbn [fst].
  rewrite (parse_spec self version_string Hnd).
  rewrite parse_spec by exact Hnd. reflexivity.
Qed.

(** "9.9.9" parsed first, then "1.4.9". *)
Lemma parse_forgets_witness :
  parse "1.4.9"
    (fst (parse "9.9.9"
            (Examples.new Examples.default_parse ["{major}.{minor}.{patch}"] ∅)))
  = parse "1.4.9"
      (Examples.new Examples.default_parse ["{major}.{minor}.{patch}"] ∅).
Proof.
  apply parse_forgets.
  apply (bool_decide_unpack _). vm_compute. exact I.
Defined.

End Keep.

(** ** serialize after bump, and with nothing parsed *)

Section Serializable.
Import Version.

(** On fields that are bare names, whether [str.format] returns depends on
    the names of its keyword arguments alone. *)
Lemma format_items_returns (kw1 kw2 : gmap string object) :
  (forall name, kw1 !! name = None <-> kw2 !! name = None) ->
  forall (items : gen Formatter.item),
    forallb bare_item (yielded items) = true ->
    forall (out1 out2 : string),
      returns (format_items items kw1 out1)
      = returns (format_items items kw2 out2).
Proof.
  intros H. induction items as [| [literal_text [fld|]] rest IH | e];
    intros Hb out1 out2; simpl in *; auto.
  apply andb_prop in Hb as [Hfld Hb]. unfold bare_item in Hfld. simpl in Hfld.
  rewrite !(output_markup_bare _ _ Hfld).
  specialize (H (Formatter.field_name fld)).
  destruct (kw1 !! Formatter.field_name fld) as [o1|],
           (kw2 !! Formatter.field_name fld) as [o2|].
  - destruct (format_empty o1) as [s1 ->], (format_empty o2) as [s2 ->]. auto.
  - destruct H as [_ H]. discriminate H. reflexivity.
  - destruct H as [H _]. discriminate H. reflexivity.
  - reflexivity.
Qed.

Lemma odict_get_None {V : Type} (d : list (string * V)) (k : string) :
  odict.get d k = None <-> ~ In k (odict.keys d).
Proof.
  rewrite <- odict_contains_keys. unfold odict.contains.
  destruct (odict.get d k); split; intros H; try discriminate; auto.
  exfalso. now apply H.
Qed.

Lemma merged_values_None (self : t) (name : string) :
  merged_values self !! name = None <->
  ~ In name (odict.keys (_parsed self)) /\ context self !! name = None.
Proof.
  rewrite merged_values_lookup.
  destruct (odict.get (rev (_parsed self)) name) as [part|] eqn:Hget.
  - split; [discriminate |]. intros [Hin _]. exfalso.
    assert (odict.get (rev (_parsed self)) name <> None) as Hne by congruence.
    apply Hne, odict_get_None. unfold odict.keys. rewrite map_rev.
    intros Hrev. apply Hin. now apply in_rev.
  - apply odict_get_None in Hget. unfold odict.keys in Hget.
    rewrite map_rev in Hget. rewrite fmap_None. split.
    + intros Hc. split; [| exact Hc]. intros Hin. apply Hget. now apply in_rev in Hin.
    + now intros [_ Hc].
Qed.

(** A format of bare names substitutes on one object exactly when it does
    on another with the same part names and the same context. *)
Lemma substitutes_names (self1 self2 : t) (f : string) :
  bare_fields f = true ->
  odict.keys (_parsed self1) = odict.keys (_parsed self2) ->
  context self1 = context self2 ->
  substitutes self1 f = substitutes self2 f.
Proof.
  intros Hb Hk Hc. unfold substitutes.
  change (returns (str_format f (merged_values self1))
          = returns (str_format f (merged_values self2))).
  apply format_items_returns; [| exact Hb]. intros name.
  now rewrite !merged_values_None, Hk, Hc.
Qed.

(** With formats that are non-empty, well-formed and of bare names,
    [serialize] returns exactly when some format substitutes. *)
Lemma serialize_returns (self : t) :
  forallb (fun f => negb (Text.is_empty f)) (serialize_formats self) = true ->
  forallb well_formed (serialize_formats self) = true ->
  forallb bare_fields (serialize_formats self) = true ->
  returns (snd (serialize self))
  = existsb (substitutes self) (serialize_formats self).
Proof.
  intros Hne Hwf Hbare.
  rewrite (existsb_pointwise _ _ _ (substitutes_eq self)).
  rewrite existsb_orb, <- (existsb_rev (accepted self)), !find_existsb.
  unfold serialize, bind, _choose_serialize_format, bind, get_self.
  rewrite (choose_loop self _ Hne Hwf Hbare None). cbn [not_].
  assert (forall l f, find (accepted self) l = Some f \/
                      find (incomplete self) l = Some f ->
                      forallb (fun f => negb (Text.is_empty f)) l = true ->
                      Text.is_empty f = false
                      /\ substitutes self f = true) as Hfound.
  { intros l f Hf Hl. rewrite forallb_forall in Hl.
    destruct Hf as [Hf|Hf]; apply find_some in Hf as [Hin Hp];
      specialize (Hl f Hin); (split; [now destruct (Text.is_empty f) |]);
      rewrite substitutes_eq, Hp; [reflexivity | now destruct (accepted self f)]. }
  destruct (find (accepted self) (rev (serialize_formats self))) as [f|] eqn:Ea.
  - destruct (Hfound _ f (or_introl Ea)) as [Hf Hs].
    { rewrite forallb_forall in Hne |- *. intros x Hx. apply Hne.
      now apply in_rev. }
    unfold not_. rewrite Hf. cbn [ret]. rewrite _serialize_spec. cbn [snd andb].
    unfold substitutes in Hs. now destruct (str_format f (merged_values self)).
  - destruct (find (incomplete self) (serialize_formats self)) as [f|] eqn:Ei;
      [| reflexivity].
    destruct (Hfound _ f (or_intror Ei) Hne) as [Hf Hs].
    unfold not_. rewrite Hf. cbn [ret]. rewrite _serialize_spec. cbn [snd andb].
    unfold substitutes in Hs. now destruct (str_format f (merged_values self)).
Qed.

Lemma existsb_pointwise_in {A : Type} (p q : A -> bool) (l : list A) :
  (forall a, In a l -> p a = q a) -> existsb p l = existsb q l.
Proof.
  intros H. induction l as [|a l IH]; simpl; [reflexivity |].
  rewrite H by now left. rewrite IH; [reflexivity |].
  intros b Hb. apply H. now right.
Qed.

(** X10.  Bumping never makes an object unserializable: with formats that
    are non-empty, well-formed and whose fields are bare names as in
    [{major}], if [serialize] returns before [bump], it returns after it,
    whatever part was named and however [bump] ended. *)
Theorem bump_keeps_serializable (part_name : string) (self : t) :
  forallb (fun f => negb (Text.is_empty f)) (serialize_formats self) = true ->
  forallb well_formed (serialize_formats self) = true ->
  forallb bare_fields (serialize_formats self) = true ->
  returns (snd (serialize self)) = true ->
  returns (snd (serialize (fst (bump part_name self)))) = true.
Proof.
  intros Hne Hwf Hbare Hr.
  destruct (bump_keeps_names_aux part_name self) as (Hk & _ & Hf & Hc).
  rewrite serialize_returns in Hr |- * by (rewrite ?Hf; assumption).
  rewrite Hf. rewrite <- Hr. apply existsb_pointwise_in. intros f Hin.
  apply substitutes_names; [| assumption | assumption].
  rewrite forallb_forall in Hbare. now apply Hbare.
Qed.

(** "1.4.9" is serializable before and after [bump("minor")]. *)
Lemma bump_keeps_serializable_witness :
  returns (snd (serialize (fst (bump "minor" Examples.default_1_4_9)))) = true.
Proof.
  apply bump_keeps_serializable; reflexivity.
Defined.

(** X8.  With nothing parsed no format is rejected as incomplete: of formats
    that are non-empty, well-formed and whose fields are bare names as in
    [{major}], the last that substitutes from the context alone is chosen,
    and without one [_choose_serialize_format] raises the [KeyError] "Did
    not find suitable serialization format". *)
Theorem serialize_nothing_parsed_choice (self : t) :
  _parsed self = [] ->
  forallb (fun f => negb (Text.is_empty f)) (serialize_formats self) = true ->
  forallb well_formed (serialize_formats self) = true ->
  forallb bare_fields (serialize_formats self) = true ->
  _choose_serialize_format self =
  (self,
   match find (substitutes self) (rev (serialize_formats self)) with
   | Some f => Return f
   | None => Raise KeyError_no_suitable_format
   end).
Proof.
  intros Hp Hne Hwf Hbare.
  assert (forall f, passes_check self f = true) as Hcheck.
  { intros f. unfold passes_check. rewrite Hp.
    rewrite bool_decide_eq_false_2; [reflexivity |].
    intros [_ Hnot]. apply Hnot. intros x Hx.
    now apply not_elem_of_empty in Hx. }
  assert (forall f, accepted self f = substitutes self f) as Hacc
    by (intros f; rewrite accepted_eq, Hcheck; now destruct (substitutes self f)).
  assert (forall f, incomplete self f = false) as Hinc
    by (intros f; rewrite incomplete_eq, Hcheck; now destruct (substitutes self f)).
  unfold _choose_serialize_format, bind, get_self.
  rewrite (choose_loop self _ Hne Hwf Hbare None). cbn [not_].
  assert (forall l, find (accepted self) l = find (substitutes self) l) as ->.
  { induction l as [|a l IH]; [reflexivity |]. simpl. now rewrite Hacc, IH. }
  assert (forall l, find (incomplete self) l = None) as ->.
  { induction l as [|a l IH]; [reflexivity |]. simpl. now rewrite Hinc. }
  destruct (find (substitutes self) (rev (serialize_formats self))) as [f|] eqn:Ef;
    [| reflexivity].
  apply find_some in Ef as [Hin _]. apply in_rev in Hin.
  rewrite forallb_forall in Hne. specialize (Hne f Hin).
  unfold not_. now destruct (Text.is_empty f).
Qed.

End Serializable.

(** "nothing" parsed with the default pattern and format. *)
Lemma serialize_nothing_parsed_choice_witness :
  Version._choose_serialize_format Examples.unparsed
  = (Examples.unparsed, Raise KeyError_no_suitable_format).
Proof.
  exact (serialize_nothing_parsed_choice Examples.unparsed
           eq_refl eq_refl eq_refl eq_refl).
Defined.

(** ** split_args_in_optional_and_positional *)

Section SplitArgs.
Import cli.

(** The test of the loop at index [i] of [args]. *)
Local Abbreviation test args :=
  (fun x : nat * string =>
     is_positional (if (0 <? fst x)%nat then args !! (fst x - 1)%nat else None)
                   (snd x)).

Lemma positions_fold (args l : list string) :
  forall (k : nat) (acc : list nat),
    foldl (fun positions '(i, arg) =>
             let previous :=
               if (0 <? i)%nat then args !! (i - 1)%nat else None in
             if is_positional previous arg then positions ++ [i] else positions)
          acc (enumerate_from k l)
    = acc ++ map fst (List.filter (test args) (enumerate_from k l)).
Proof.
  induction l as [|a l IH]; intros k acc; simpl.
  - now rewrite app_nil_r.
  - rewrite IH. destruct (is_positional _ a); simpl; [| reflexivity].
    now rewrite <- app_assoc.
Qed.

Lemma enumerate_from_fst {A : Type} (l : list A) :
  forall k, map fst (enumerate_from k l) = seq k (List.length l).
Proof. induction l as [|a l IH]; intros k; simpl; [| rewrite IH]; reflexivity. Qed.

(** Among pairs with distinct indices, an index is among those kept by a
    filter exactly when its pair passes the filter. *)
Lemma existsb_filter_index {A : Type} (h : nat * A -> bool) (L : list (nat * A)) :
  List.NoDup (map fst L) ->
  forall x, In x L ->
    existsb (Nat.eqb (fst x)) (map fst (List.filter h L)) = h x.
Proof.
  intros Hnd x Hx. destruct (h x) eqn:Hh.
  - apply existsb_exists. exists (fst x). split; [| apply Nat.eqb_refl].
    apply in_map. apply filter_In. auto.
  - apply not_true_is_false. intros H. apply existsb_exists in H as (i & Hi & E).
    apply Nat.eqb_eq in E. subst i. apply in_map_iff in Hi as (y & Hy & Hin).
    apply filter_In in Hin as [Hin Hhy].
    assert (y = x) as ->; [| congruence].
    clear Hh Hhy. induction L as [|z L IH]; [contradiction |].
    simpl in Hnd. apply List.NoDup_cons_iff in Hnd as [Hz Hnd].
    destruct Hx as [->|Hx], Hin as [->|Hin]; auto.
    + exfalso. apply Hz. rewrite <- Hy. now apply in_map.
    + exfalso. apply Hz. rewrite Hy. now apply in_map.
Qed.

Lemma split_args_filter (args : list string) :
  split_args_in_optional_and_positional args =
  (map snd (List.filter (test args) (enumerate_from 0 args)),
   map snd (List.filter (fun x => negb (test args x)) (enumerate_from 0 args))).
Proof.
  unfold split_args_in_optional_and_positional, positions_of.
  rewrite positions_fold. cbn [app].
  assert (List.NoDup (map fst (enumerate_from 0 args))) as Hnd
    by (rewrite enumerate_from_fst; apply List.seq_NoDup).
  f_equal; f_equal; apply filter_ext_in; intros [i a] Hin.
  - apply (existsb_filter_index (test args) _ Hnd (i, a) Hin).
  - f_equal. apply (existsb_filter_index (test args) _ Hnd (i, a) Hin).
Qed.

Lemma classify_filter (l : list string) :
  forall pre : list string,
    classify (last pre) l =
    (map snd (List.filter (test (pre ++ l)) (enumerate_from (List.length pre) l)),
     map snd (List.filter (fun x => negb (test (pre ++ l) x))
                          (enumerate_from (List.length pre) l))).
Proof.
  induction l as [|a l IH]; intros pre; [reflexivity |].
  cbn [classify enumerate_from List.filter].
  specialize (IH (pre ++ [a])).
  rewrite last_snoc, <- app_assoc, length_app in IH. cbn [List.length app] in IH.
  rewrite Nat.add_1_r in IH. rewrite IH. cbn [fst snd].
  assert ((if (0 <? List.length pre)%nat
           then (pre ++ a :: l) !! (List.length pre - 1)%nat else None)
          = last pre) as ->.
  { destruct pre as [|b pre] using rev_ind; [reflexivity |].
    rewrite last_snoc, length_app. cbn [List.length].
    replace (0 <? List.length pre + 1)%nat with true
      by (symmetry; apply Nat.ltb_lt; lia).
    rewrite <- app_assoc. cbn [app].
    rewrite lookup_app_r by lia.
    now replace (List.length pre + 1 - 1 - List.length pre)%nat with 0%nat by lia. }
  now destruct (is_positional (last pre) a).
Qed.

(** The split made with [positions] is the split made by one pass. *)
Lemma split_args_classify (args : list string) :
  split_args_in_optional_and_positional args = classify None args.
Proof. rewrite split_args_filter. symmetry. apply (classify_filter args []). Qed.

Lemma classify_app (l1 l2 : list string) :
  forall previous : option string,
    classify previous (l1 ++ l2) =
    (fst (classify previous l1)
       ++ fst (classify (from_option Some previous (last l1)) l2),
     snd (classify previous l1)
       ++ snd (classify (from_option Some previous (last l1)) l2)).
Proof.
  induction l1 as [|a l1 IH]; intros previous.
  - cbn [app classify fst snd last from_option].
    now destruct (classify previous l2).
  - cbn [app classify]. rewrite (IH (Some a)).
    assert (from_option Some previous (last (a :: l1))
            = from_option Some (Some a) (last l1)) as ->
      by (destruct l1 as [|b l1 _] using rev_ind;
          [reflexivity | now rewrite app_comm_cons, !last_snoc]).
    destruct (classify (Some a) l1) as [p1 o1].
    now destruct (is_positional previous a).
Qed.

Lemma classify_previous (p1 p2 : option string) (l : list string) :
  takes_value p1 = takes_value p2 -> classify p1 l = classify p2 l.
Proof.
  intros H. destruct l as [|a l]; [reflexivity |].
  cbn [classify]. unfold is_positional. now rewrite H.
Qed.

(** Every option that takes a value is a long option. *)
Lemma takes_value_long (opt : string) :
  takes_value (Some opt) = true -> startswith opt "--" = true.
Proof.
  unfold takes_value. intros H. apply existsb_exists in H as (x & Hx & E).
  apply String.eqb_eq in E. subst x.
  repeat (destruct Hx as [<-|Hx]; [reflexivity |]). contradiction.
Qed.

(** X15.  The two lists returned are complementary: each keeps the order of the
    command line, and together they hold every argument once. *)
Theorem split_args_partition (args : list string) :
  fst (split_args_in_optional_and_positional args) `sublist_of` args
  /\ snd (split_args_in_optional_and_positional args) `sublist_of` args
  /\ fst (split_args_in_optional_and_positional args)
       ++ snd (split_args_in_optional_and_positional args) ≡ₚ args.
Proof.
  rewrite split_args_classify. generalize (@None string).
  induction args as [|a args IH]; intros previous.
  - cbn. repeat split; constructor.
  - cbn [classify]. destruct (IH (Some a)) as (H1 & H2 & H3).
    destruct (classify (Some a) args) as [p o].
    cbn [fst snd] in *.
    destruct (is_positional previous a); cbn [fst snd].
    + split; [now constructor |]. split; [now constructor |].
      cbn [app]. now constructor.
    + split; [now constructor |]. split; [now constructor |].
      rewrite <- Permutation_middle. now constructor.
Qed.

(** X16.  No positional is a long option, and every long option stays among the
    other arguments, in order. *)
Theorem split_args_long_options (args : list string) :
  Forall (fun a => startswith a "--" = false)
         (fst (split_args_in_optional_and_positional args))
  /\ List.filter (fun a => startswith a "--")
                 (snd (split_args_in_optional_and_positional args))
     = List.filter (fun a => startswith a "--") args.
Proof.
  rewrite split_args_classify. generalize (@None string).
  induction args as [|a args IH]; intros previous.
  - cbn. split; [constructor | reflexivity].
  - cbn [classify]. destruct (IH (Some a)) as (H1 & H2).
    destruct (classify (Some a) args) as [p o]. cbn [fst snd] in *.
    unfold is_positional.
    destruct (startswith a "--") eqn:Ha; cbn [negb andb fst snd List.filter].
    + rewrite Ha. split; [exact H1 | now rewrite H2].
    + rewrite Ha. destruct (negb (takes_value previous)); cbn [fst snd List.filter].
      * split; [now constructor | exact H2].
      * rewrite Ha. split; [exact H1 | exact H2].
Qed.

(** X17.  An option that takes a value passes through with its value, whatever the
    value looks like, and the arguments before and after it are split
    independently (the value itself not being the name of such an option). *)
Theorem split_args_option_with_value (pre post : list string) (opt v : string) :
  takes_value (Some opt) = true ->
  takes_value (Some v) = false ->
  split_args_in_optional_and_positional (pre ++ opt :: v :: post) =
  (fst (split_args_in_optional_and_positional pre)
     ++ fst (split_args_in_optional_and_positional post),
   snd (split_args_in_optional_and_positional pre)
     ++ opt :: v :: snd (split_args_in_optional_and_positional post)).
Proof.
  intros Hopt Hv. rewrite !split_args_classify, classify_app.
  assert (forall previous, is_positional previous opt = false) as Hlong
    by (intros previous; unfold is_positional;
        now rewrite (takes_value_long _ Hopt)).
  assert (is_positional (Some opt) v = false) as Hvalue
    by (unfold is_positional; rewrite Hopt; apply Bool.andb_false_r).
  cbn [classify]. rewrite Hlong, Hvalue.
  rewrite (classify_previous (Some v) None post) by exact Hv.
  now destruct (classify None post).
Qed.

(** [--message] followed by a text that looks like the name of a part. *)
Lemma split_args_option_with_value_witness :
  split_args_in_optional_and_positional
    (["patch"] ++ "--message" :: "minor" :: ["setup.py"])
  = (["patch"] ++ ["setup.py"], [] ++ "--message" :: "minor" :: []).
Proof.
  exact (split_args_option_with_value ["patch"] ["setup.py"] "--message" "minor"
           eq_refl eq_refl).
Defined.

(** X18.  An argument that is no long option and does not follow an option that
    takes a value is a positional, also when it is a short option such as
    [-n] or [-m]: it stands after the positionals of the arguments before
    it. *)
Theorem split_args_short_option (pre post : list string) (a : string) :
  startswith a "--" = false ->
  takes_value (last pre) = false ->
  exists positionals,
    fst (split_args_in_optional_and_positional (pre ++ a :: post))
    = fst (split_args_in_optional_and_positional pre) ++ a :: positionals.
Proof.
  intros Ha Hpre. rewrite !split_args_classify, classify_app. cbn [fst classify].
  assert (is_positional (from_option Some None (last pre)) a = true) as ->.
  { unfold is_positional. rewrite Ha. cbn [negb andb].
    destruct (last pre) as [b|]; cbn [from_option]; [now rewrite Hpre | reflexivity]. }
  destruct (classify (Some a) post) as [p o]. now exists p.
Qed.

(** [-n patch]: the short option is the first positional. *)
Lemma split_args_short_option_witness :
  exists positionals,
    fst (split_args_in_optional_and_positional ([] ++ "-n" :: ["patch"]))
    = fst (split_args_in_optional_and_positional []) ++ "-n" :: positionals.
Proof.
  exact (split_args_short_option [] ["patch"] "-n" eq_refl eq_refl).
Defined.

End SplitArgs.

(** ** The action of --serialize *)

Section AppendAction.
Import DiscardDefaultIfSpecifiedAppendAction.

Lemma append_calls (vs : list string) :
  forall items : list string,
    foldl (fun st v => __call__ v st)
          {| _discarded_default := true; dest := Some items |} vs
    = {| _discarded_default := true; dest := Some (items ++ vs) |}.
Proof.
  induction vs as [|v vs IH]; intros items; cbn [foldl].
  - now rewrite app_nil_r.
  - unfold __call__ at 2, append_call. cbn [_discarded_default dest].
    rewrite IH. now rewrite <- app_assoc.
Qed.

(** X19.  On a new action, the values given on the command line replace the
    default found under [dest], however many they are, and stand in the
    order given; on an action that has discarded the default, they are
    appended. *)
Theorem discard_default_if_specified (default : option (list string))
    (v : string) (vs items : list string) :
  foldl (fun st v => __call__ v st)
        {| _discarded_default := false; dest := default |} (v :: vs)
  = {| _discarded_default := true; dest := Some (v :: vs) |}
  /\ foldl (fun st v => __call__ v st)
           {| _discarded_default := true; dest := Some items |} (v :: vs)
     = {| _discarded_default := true; dest := Some (items ++ v :: vs) |}.
Proof.
  split; [| apply append_calls].
  cbn [foldl]. unfold __call__ at 2, append_call.
  cbn [_discarded_default dest app]. apply append_calls.
Qed.

End AppendAction.

(** ** assert_nondirty *)

Section Nondirty.
Import vcs Output.

Lemma splitlines_from_line (line rest : string) :
  one_line line = true ->
  forall acc : string,
    splitlines_from acc (line +:+ nl +:+ rest)
    = (acc +:+ line) :: splitlines_from EmptyString rest.
Proof.
  induction line as [|c line IH]; intros Hl acc.
  - rewrite append_nil, append_empty_r. unfold nl. rewrite append_cons.
    cbn [splitlines_from]. now rewrite Ascii.eqb_refl.
  - apply all_cons in Hl as [Hc Hl]. apply andb_prop in Hc as [Hn Hr].
    rewrite append_cons. cbn [splitlines_from].
    destruct (Ascii.eqb c Text.newline); [discriminate |].
    destruct (Ascii.eqb c cr); [discriminate |].
    rewrite IH by assumption. now rewrite append_assoc.
Qed.

(** [splitlines] gives back the lines of a text made of lines. *)
Lemma splitlines_unlines (lines : list string) :
  forallb one_line lines = true -> splitlines (unlines lines) = lines.
Proof.
  unfold splitlines. induction lines as [|line lines IH]; intros H.
  - reflexivity.
  - simpl in H. apply andb_prop in H as [Hl H]. cbn [unlines].
    rewrite splitlines_from_line by assumption. now rewrite IH.
Qed.

(** X20.  On a status output made of lines, [assert_nondirty] returns exactly when
    every line names an untracked file; any other line, a blank one too,
    makes it fail its assertion. *)
Theorem assert_nondirty_untracked (lines : list string) :
  forallb one_line lines = true ->
  assert_nondirty (unlines lines) =
  if forallb untracked lines then Ok tt else Fail AssertionError.
Proof.
  intros H. unfold assert_nondirty. rewrite (splitlines_unlines _ H). clear H.
  induction lines as [|line lines IH]; [reflexivity |].
  cbn [List.filter forallb]. fold (untracked line).
  destruct (untracked line); cbn [negb andb map]; [exact IH | reflexivity].
Qed.

(** An untracked file and a modified one. *)
Lemma assert_nondirty_untracked_witness :
  assert_nondirty (unlines ["?? notes.txt"; " M setup.py"])
  = Fail AssertionError.
Proof.
  exact (assert_nondirty_untracked ["?? notes.txt"; " M setup.py"] eq_refl).
Defined.

End Nondirty.

(** ** latest_tag_info *)

Section Describe.
Import vcs Output.

Lemma all_impl (p q : ascii -> bool) (s : string) :
  (forall c, p c = true -> q c = true) ->
  Text.all p s = true -> Text.all q s = true.
Proof.
  intros Hpq. induction s as [|c s IH]; [reflexivity |].
  intros H. apply all_cons in H as [Hc H]. cbn [Text.all].
  now rewrite (Hpq _ Hc), IH.
Qed.

Local Ltac by_cases_on c :=
  destruct c as [[] [] [] [] [] [] [] []]; vm_compute; intros;
  solve [reflexivity | discriminate].

Lemma plain_below_128 (c : ascii) :
  plain c = true -> (N_of_ascii c <? 128)%N = true.
Proof. by_cases_on c. Qed.

Lemma plain_no_hyphen (c : ascii) :
  plain c = true -> negb (Ascii.eqb c "-") = true.
Proof. by_cases_on c. Qed.

Lemma isdigit_plain (c : ascii) : Text.isdigit c = true -> plain c = true.
Proof. by_cases_on c. Qed.

Lemma hexdigit_plain (c : ascii) : hexdigit c = true -> plain c = true.
Proof. by_cases_on c. Qed.

Lemma hexdigit_not_g (c : ascii) :
  hexdigit c = true -> Ascii.eqb "g" c = false.
Proof. by_cases_on c. Qed.

Lemma startswith_v (c : ascii) (s : string) :
  startswith (String c s) "v" = false -> Ascii.eqb "v" c = false.
Proof.
  unfold startswith. cbn [String.prefix]. intros H.
  destruct (Ascii.eqb_spec "v" c) as [<- |]; [| reflexivity].
  destruct (ascii_dec "v" "v") as [_ | Hne]; [| now destruct Hne].
  now destruct s.
Qed.

(** [split] cuts at the first separator. *)
Lemma split_nonempty (sep : ascii) (s : string) : split sep s <> [].
Proof.
  destruct s as [|c s]; cbn [split]; [discriminate |].
  destruct (Ascii.eqb c sep); [discriminate |].
  destruct (split sep s); discriminate.
Qed.

Lemma split_piece (sep : ascii) (a : string) :
  Text.all (fun c => negb (Ascii.eqb c sep)) a = true ->
  split sep a = [a].
Proof.
  induction a as [|c a IH]; [reflexivity |].
  intros H. apply all_cons in H as [Hc H]. cbn [split].
  apply negb_true_iff in Hc. rewrite Hc. now rewrite IH.
Qed.

Lemma split_app (sep : ascii) (a b : string) :
  Text.all (fun c => negb (Ascii.eqb c sep)) a = true ->
  split sep (a +:+ String sep b) = a :: split sep b.
Proof.
  induction a as [|c a IH]; intros H.
  - rewrite append_nil. cbn [split]. now rewrite Ascii.eqb_refl.
  - apply all_cons in H as [Hc H]. rewrite append_cons. cbn [split].
    apply negb_true_iff in Hc. rewrite Hc. now rewrite IH.
Qed.

Lemma strip_head (chars : ascii -> bool) (c : ascii) (s : string) :
  chars c = false -> strip chars (String c s) = String c (rstrip chars s).
Proof.
  intros H. unfold strip, lstrip. cbn [Text.drop_while]. rewrite H.
  cbn [rstrip]. rewrite H. now rewrite andb_false_r.
Qed.

Lemma drop_while_head_stuck (p : ascii -> bool) (s : string) :
  match s with String c _ => p c = false | EmptyString => True end ->
  Text.drop_while p s = s.
Proof. destruct s as [|c s]; [reflexivity |]. cbn. now intros ->. Qed.

Lemma pop_one {A : Type} (a : A) : pop [a] = Ok (a, []).
Proof. reflexivity. Qed.

Lemma pop_two {A : Type} (a b : A) : pop [a; b] = Ok (b, [a]).
Proof. reflexivity. Qed.

Lemma pop_three {A : Type} (a b c : A) : pop [a; b; c] = Ok (c, [a; b]).
Proof. reflexivity. Qed.

Lemma pop_Ok {A : Type} (l l' : list A) (x : A) :
  pop l = Ok (x, l') -> l = l' ++ [x].
Proof.
  unfold pop. destruct (rev l) as [|y r] eqn:E; [discriminate |].
  intros [= <- <-]. rewrite <- (rev_involutive l), E. reflexivity.
Qed.

Lemma removelast_last {A : Type} (l : list A) (d : A) :
  l <> [] -> l = removelast l ++ [List.last l d].
Proof. apply app_removelast_last. Qed.

Variable int : string -> outcome N.

(** What [latest_tag_info] does with the pieces of a decoded output. *)
Lemma latest_tag_info_pieces (output : string) :
  Text.all (fun c => (N_of_ascii c <? 128)%N) output = true ->
  latest_tag_info int (Some output) =
  let pieces := split "-" output in
  let dirty :=
    String.eqb (strip isspace_unicode (List.last pieces EmptyString)) "dirty" in
  and_then (pop (if dirty then removelast pieces else pieces))
    (fun '(sha, pieces) =>
  and_then (pop pieces) (fun '(distance, pieces) =>
  and_then (int distance) (fun n =>
  and_then (pop pieces) (fun '(tag, pieces) =>
  match pieces with
  | [] =>
      Ok (<["current_version" := VStr (lstrip (Ascii.eqb "v") tag)]>
          (<["distance_to_latest_tag" := VInt n]>
           (<["commit_sha" := VStr (lstrip (Ascii.eqb "g") sha)]>
            (if dirty then <["dirty" := VTrue]> ∅ else ∅))))
  | _ :: _ => Fail AssertionError
  end)))).
Proof.
  intros Hascii. unfold latest_tag_info, decode. rewrite Hascii.
  cbn [and_then]. cbv zeta.
  destruct (String.eqb _ "dirty"); reflexivity.
Qed.

Hypothesis int_digits :
  forall s : string,
    Text.is_empty s = false -> Text.all Text.isdigit s = true ->
    int s = Ok (Text.int s).

(** X21.  The output of [git describe] for a version without hyphen is read back:
    the version without its [v], the distance as a number and the commit
    without its [g]; the entry [dirty] is there exactly when the output ends
    with [-dirty], and otherwise the commit keeps the line feed that ends the
    output. *)
Theorem latest_tag_info_describe (version distance sha : string) (dirty : bool) :
  Text.all plain version = true ->
  startswith version "v" = false ->
  Text.is_empty distance = false ->
  Text.all Text.isdigit distance = true ->
  Text.all hexdigit sha = true ->
  latest_tag_info int (Some (describe version distance sha dirty)) =
  Ok (<["current_version" := VStr version]>
      (<["distance_to_latest_tag" := VInt (Text.int distance)]>
       (<["commit_sha" := VStr (if dirty then sha else sha +:+ nl)]>
        (if dirty then <["dirty" := VTrue]> ∅ else ∅)))).
Proof.
  intros Hversion Hv Hne Hdigits Hsha.
  assert (Hsplit : split "-" (describe version distance sha dirty) =
            ["v" +:+ version; distance] ++
            (if dirty then ["g" +:+ sha; "dirty" +:+ nl]
             else ["g" +:+ sha +:+ nl])).
  { unfold describe.
    change ("v" +:+ version +:+ "-" +:+ distance +:+ "-" +:+ "g" +:+ sha
            +:+ (if dirty then "-dirty" else EmptyString) +:+ nl)
      with (String "v" version +:+ String "-" (distance +:+ String "-"
              (String "g" (sha +:+ (if dirty then "-dirty" else EmptyString)
                           +:+ nl)))).
    rewrite (split_app "-" (String "v" version)).
    2:{ cbn [Text.all]. rewrite (all_impl _ _ _ plain_no_hyphen Hversion).
        reflexivity. }
    rewrite (split_app "-" distance).
    2:{ apply (all_impl Text.isdigit); [| assumption].
        intros c Hc. apply plain_no_hyphen, isdigit_plain, Hc. }
    assert (Hg : Text.all (fun c => negb (Ascii.eqb c "-")) (String "g" sha)
                 = true).
    { cbn [Text.all]. apply andb_true_intro. split; [reflexivity |].
      apply (all_impl hexdigit); [| assumption].
      intros c Hc. apply plain_no_hyphen, hexdigit_plain, Hc. }
    destruct dirty.
    - change (String "g" (sha +:+ "-dirty" +:+ nl))
        with (String "g" sha +:+ String "-" ("dirty" +:+ nl)).
      rewrite (split_app "-" (String "g" sha)) by exact Hg. reflexivity.
    - rewrite append_nil.
      change (String "g" (sha +:+ nl)) with (String "g" sha +:+ nl).
      rewrite split_piece; [reflexivity |].
      rewrite all_app, Hg. reflexivity. }
  rewrite latest_tag_info_pieces.
  2:{ unfold describe. rewrite !all_app.
      rewrite (all_impl _ _ _ plain_below_128 Hversion).
      rewrite (all_impl Text.isdigit _ distance
                 (fun c Hc => plain_below_128 c (isdigit_plain c Hc)) Hdigits).
      rewrite (all_impl hexdigit _ sha
                 (fun c Hc => plain_below_128 c (hexdigit_plain c Hc)) Hsha).
      now destruct dirty. }
  cbv zeta. rewrite Hsplit.
  assert (Hlstrip_v : lstrip (Ascii.eqb "v") ("v" +:+ version) = version).
  { change ("v" +:+ version) with (String "v" version).
    unfold lstrip. cbn [Text.drop_while]. rewrite Ascii.eqb_refl.
    apply drop_while_head_stuck. destruct version as [|c version]; [exact I |].
    now apply startswith_v in Hv. }
  destruct dirty.
  - change ((["v" +:+ version; distance] ++ ["g" +:+ sha; "dirty" +:+ nl]))
      with (["v" +:+ version; distance; "g" +:+ sha; "dirty" +:+ nl]).
    cbn [List.last removelast].
    change (strip isspace_unicode ("dirty" +:+ nl) =? "dirty")%string with true.
    cbv iota.
    rewrite pop_three. cbn [and_then].
    rewrite pop_two. cbn [and_then].
    rewrite (int_digits _ Hne Hdigits). cbn [and_then].
    rewrite pop_one. cbn [and_then].
    rewrite Hlstrip_v.
    replace (lstrip (Ascii.eqb "g") ("g" +:+ sha)) with sha; [reflexivity |].
    change ("g" +:+ sha) with (String "g" sha).
    unfold lstrip. cbn [Text.drop_while]. rewrite Ascii.eqb_refl.
    symmetry. apply drop_while_head_stuck. destruct sha as [|c sha]; [exact I |].
    apply all_cons in Hsha as [Hc _]. now apply hexdigit_not_g.
  - change ((["v" +:+ version; distance] ++ ["g" +:+ sha +:+ nl]))
      with (["v" +:+ version; distance; "g" +:+ sha +:+ nl]).
    cbn [List.last removelast].
    change ("g" +:+ sha +:+ nl) with (String "g" (sha +:+ nl)).
    rewrite (strip_head isspace_unicode "g") by reflexivity.
    change (String "g" (rstrip isspace_unicode (sha +:+ nl)) =? "dirty")%string
      with false.
    cbv iota.
    rewrite pop_three. cbn [and_then].
    rewrite pop_two. cbn [and_then].
    rewrite (int_digits _ Hne Hdigits). cbn [and_then].
    rewrite pop_one. cbn [and_then].
    rewrite Hlstrip_v.
    replace (lstrip (Ascii.eqb "g") (String "g" (sha +:+ nl)))
      with (sha +:+ nl); [reflexivity |].
    unfold lstrip. cbn [Text.drop_while]. rewrite Ascii.eqb_refl.
    symmetry. apply drop_while_head_stuck. destruct sha as [|c sha]; [reflexivity |].
    rewrite append_cons.
    apply all_cons in Hsha as [Hc _]. now apply hexdigit_not_g.
Qed.

End Describe.

Lemma int_of_digits_digits (s : string) :
  Text.is_empty s = false -> Text.all Text.isdigit s = true ->
  vcs.int_of_digits s = vcs.Ok (Text.int s).
Proof. intros Hne Hd. unfold vcs.int_of_digits. now rewrite Hne, Hd. Qed.

(** The tag [v0.3.7], four commits earlier, with changes in the working
    directory. *)
Lemma latest_tag_info_describe_witness :
  vcs.latest_tag_info vcs.int_of_digits
    (Some (Output.describe "0.3.7" "4" "0123abc" true))
  = vcs.Ok (<["current_version" := vcs.VStr "0.3.7"]>
            (<["distance_to_latest_tag" := vcs.VInt 4]>
             (<["commit_sha" := vcs.VStr "0123abc"]>
              (<["dirty" := vcs.VTrue]> ∅)))).
Proof.
  exact (latest_tag_info_describe vcs.int_of_digits int_of_digits_digits
           "0.3.7" "4" "0123abc" true eq_refl eq_refl eq_refl eq_refl eq_refl).
Defined.

Section DescribePieces.
Import vcs Output.

Variable int : string -> outcome N.

(** X22.  [latest_tag_info] returns a dictionary only for an output of exactly
    three pieces between hyphens, or of four when the last one is [dirty]
    within white space: the output for a tag with a hyphen in its version
    is never read back.  The dictionary holds the three pieces, and [dirty]
    in the second case. *)
Theorem latest_tag_info_three_pieces
    (output : string) (info : gmap string value) :
  latest_tag_info int (Some output) = Ok info ->
  exists (tag distance sha : string) (n : N),
    int distance = Ok n
    /\ (split "-" output = [tag; distance; sha]
        /\ info = <["current_version" := VStr (lstrip (Ascii.eqb "v") tag)]>
                  (<["distance_to_latest_tag" := VInt n]>
                   (<["commit_sha" := VStr (lstrip (Ascii.eqb "g") sha)]> ∅))
        \/ exists last : string,
             split "-" output = [tag; distance; sha; last]
             /\ strip isspace_unicode last = "dirty"
             /\ info = <["current_version" := VStr (lstrip (Ascii.eqb "v") tag)]>
                       (<["distance_to_latest_tag" := VInt n]>
                        (<["commit_sha" := VStr (lstrip (Ascii.eqb "g") sha)]>
                         (<["dirty" := VTrue]> ∅)))).
Proof.
  intros H.
  destruct (Text.all (fun c => (N_of_ascii c <? 128)%N) output) eqn:Hascii.
  2:{ unfold latest_tag_info, decode in H. rewrite Hascii in H. discriminate. }
  rewrite (latest_tag_info_pieces int output Hascii) in H. cbv zeta in H.
  pose proof (split_nonempty "-" output) as Hne.
  pose proof (removelast_last (split "-" output) EmptyString Hne) as Hlast.
  destruct (String.eqb _ "dirty") eqn:Hdirty in H.
  - destruct (pop (removelast _)) as [[sha l1] | e] eqn:E1; [| discriminate].
    cbn [and_then] in H.
    destruct (pop l1) as [[distance l2] | e] eqn:E2; [| discriminate].
    cbn [and_then] in H.
    destruct (int distance) as [n | e] eqn:En; [| discriminate].
    cbn [and_then] in H.
    destruct (pop l2) as [[tag l3] | e] eqn:E3; [| discriminate].
    cbn [and_then] in H.
    destruct l3; [| discriminate]. injection H as <-.
    apply pop_Ok in E1, E2, E3. subst l2 l1. cbn [app] in E1.
    exists tag, distance, sha, n. split; [exact En |]. right.
    exists (List.last (split "-" output) EmptyString).
    rewrite E1 in Hlast. cbn [app] in Hlast.
    split; [exact Hlast |]. split; [| reflexivity].
    now apply String.eqb_eq.
  - destruct (pop (split _ _)) as [[sha l1] | e] eqn:E1; [| discriminate].
    cbn [and_then] in H.
    destruct (pop l1) as [[distance l2] | e] eqn:E2; [| discriminate].
    cbn [and_then] in H.
    destruct (int distance) as [n | e] eqn:En; [| discriminate].
    cbn [and_then] in H.
    destruct (pop l2) as [[tag l3] | e] eqn:E3; [| discriminate].
    cbn [and_then] in H.
    destruct l3; [| discriminate]. injection H as <-.
    apply pop_Ok in E1, E2, E3. subst l2 l1. cbn [app] in E1.
    exists tag, distance, sha, n. split; [exact En |]. left.
    split; [exact E1 | reflexivity].
Qed.

End DescribePieces.

(** The tag [v0.3.7], four commits earlier, nothing changed. *)
Lemma latest_tag_info_three_pieces_witness :
  exists (tag distance sha : string) (n : N),
    vcs.int_of_digits distance = vcs.Ok n
    /\ (vcs.split "-" (Output.describe "0.3.7" "4" "0123abc" false)
          = [tag; distance; sha]
        /\ <["current_version" := vcs.VStr "0.3.7"]>
             (<["distance_to_latest_tag" := vcs.VInt 4]>
                (<["commit_sha" := vcs.VStr ("0123abc" +:+ Output.nl)]>
                   (∅ : gmap string vcs.value)))
           = <["current_version" := vcs.VStr (vcs.lstrip (Ascii.eqb "v") tag)]>
               (<["distance_to_latest_tag" := vcs.VInt n]>
                  (<["commit_sha" := vcs.VStr (vcs.lstrip (Ascii.eqb "g") sha)]>
                     ∅))
        \/ exists last : string,
             vcs.split "-" (Output.describe "0.3.7" "4" "0123abc" false)
               = [tag; distance; sha; last]
             /\ vcs.strip vcs.isspace_unicode last = "dirty"
             /\ <["current_version" := vcs.VStr "0.3.7"]>
                  (<["distance_to_latest_tag" := vcs.VInt 4]>
                     (<["commit_sha" := vcs.VStr ("0123abc" +:+ Output.nl)]>
                        (∅ : gmap string vcs.value)))
                = <["current_version" := vcs.VStr (vcs.lstrip (Ascii.eqb "v") tag)]>
                    (<["distance_to_latest_tag" := vcs.VInt n]>
                       (<["commit_sha" := vcs.VStr (vcs.lstrip (Ascii.eqb "g") sha)]>
                          (<["dirty" := vcs.VTrue]> ∅)))).
Proof.
  apply (latest_tag_info_three_pieces vcs.int_of_digits).
  vm_compute. reflexivity.
Defined.

(** ** parse, bump and serialize with the default pattern and format *)

Section Defaults.
Import Version.

Lemma numeral_spec (s : string) :
  Numeral.numeral s = true ->
  Text.is_empty s = false /\ Text.all Text.isdigit s = true.
Proof.
  unfold Numeral.numeral. intros H. apply andb_prop in H as [Hne Hd].
  split; [now apply negb_true_iff | exact Hd].
Qed.

(** A part that holds a numeral holds the numeral of its successor after
    [bump]. *)
Lemma bump_numeral (s : string) :
  Numeral.numeral s = true ->
  VersionPart.bump {| VersionPart._value := Some s |} =
  Return {| VersionPart._value := Some (Text.str (Text.int s + 1)) |}.
Proof.
  intros H. apply numeral_spec in H as [Hne Hall].
  rewrite VersionPart_bump_spec. cbv zeta.
  assert (VersionPart.value {| VersionPart._value := Some s |} = s) as ->
    by (unfold VersionPart.value; cbn [VersionPart._value]; now rewrite Hne).
  destruct s as [|c d]; [discriminate |].
  pose proof Hall as Hd. apply all_cons in Hd as [Hc Hd].
  assert (Text.notdigit c = false) as Hnc by (unfold Text.notdigit; now rewrite Hc).
  cbn [Text.all Text.take_while Text.drop_while]. rewrite Hnc. cbn [andb].
  rewrite (take_while_all_id _ _ Hall), (drop_while_all _ _ Hall).
  cbn [Text.take_while]. now rewrite append_nil, append_empty_r.
Qed.

(** A group of digits takes a whole numeral, up to a character that is no
    digit. *)
Lemma rmatch_numeral_head (n : nat) (s rest : string) (g : re.captures) :
  Numeral.numeral s = true ->
  Text.take_while Text.isdigit rest = EmptyString ->
  head (re.rmatch (re.Group n (re.Plus re.digit)) (s +:+ rest) g)
  = Some (s, rest, (n, s) :: g).
Proof.
  intros H Hrest. apply numeral_spec in H as [Hne Hall].
  destruct (span_app Text.isdigit s rest Hall Hrest) as [Htake Hdrop].
  apply rmatch_group_head.
  destruct s as [|c d]; [discriminate |].
  rewrite append_cons in Htake, Hdrop |- *.
  apply all_cons in Hall as [Hc _].
  unfold re.digit. rewrite (rmatch_plus_chars_head _ _ _ _ Hc).
  now rewrite Htake, Hdrop.
Qed.

Lemma rmatch_lit_head (c : ascii) (rest : string) (g : re.captures) :
  head (re.rmatch (re.lit c) (String c rest) g)
  = Some (String c EmptyString, rest, g).
Proof. cbn [re.rmatch re.lit]. now rewrite Ascii.eqb_refl. Qed.

(** The default pattern on three numerals between dots binds them to its
    three groups. *)
Lemma search_default_parse (major minor patch : string) :
  Numeral.numeral major = true ->
  Numeral.numeral minor = true ->
  Numeral.numeral patch = true ->
  re.search Examples.default_parse (major +:+ "." +:+ minor +:+ "." +:+ patch)
  = Some {| re.bound := [(3%nat, patch); (2%nat, minor); (1%nat, major)] |}.
Proof.
  intros Ha Hb Hc. unfold re.search. cbn [re.ast Examples.default_parse].
  eapply search_ast_head.
  eapply rmatch_cat_head; [apply rmatch_numeral_head; [exact Ha | reflexivity] |].
  eapply rmatch_cat_head; [apply rmatch_lit_head |].
  eapply rmatch_cat_head; [apply rmatch_numeral_head; [exact Hb | reflexivity] |].
  eapply rmatch_cat_head; [apply rmatch_lit_head |].
  rewrite <- (append_empty_r patch) at 1.
  apply rmatch_numeral_head; [exact Hc | reflexivity].
Qed.

Variable ctx : gmap string string.

Local Abbreviation default := ["{major}.{minor}.{patch}"].

Local Abbreviation three major minor patch :=
  {| parse_regex := Examples.default_parse;
     serialize_formats := default;
     context := ctx;
     _parsed := [("major", major); ("minor", minor); ("patch", patch)] |}.

Lemma parse_default (major minor patch : string) :
  Numeral.numeral major = true ->
  Numeral.numeral minor = true ->
  Numeral.numeral patch = true ->
  parse (major +:+ "." +:+ minor +:+ "." +:+ patch)
    (Examples.new Examples.default_parse default ctx)
  = (three {| VersionPart._value := Some major |}
           {| VersionPart._value := Some minor |}
           {| VersionPart._value := Some patch |},
     Return tt).
Proof.
  intros Ha Hb Hc. rewrite parse_spec.
  2:{ apply (bool_decide_unpack _). vm_compute. exact I. }
  cbn [parse_regex Examples.new].
  rewrite (search_default_parse _ _ _ Ha Hb Hc). reflexivity.
Qed.

(** With one format, [serialize] returns what the format gives. *)
Lemma serialize_one_format (self : t) (f serialized : string) :
  serialize_formats self = [f] ->
  Text.is_empty f = false ->
  str_format f (merged_values self) = Return serialized ->
  serialize self = (self, Return serialized).
Proof.
  intros Hf Hne Hs. unfold serialize, bind at 1.
  unfold _choose_serialize_format, bind, get_self. rewrite Hf.
  cbn [for_list]. unfold bind. rewrite choose_round_spec, _serialize_spec.
  cbn [snd]. rewrite Hs.
  destruct (true && _); unfold ret; cbn [not_]; rewrite Hne;
    rewrite _serialize_spec, Hs; reflexivity.
Qed.

Local Abbreviation named name :=
  {| Formatter.field_name := name; Formatter.conversion := None;
     Formatter.format_spec := EmptyString;
     Formatter.format_spec_needs_expanding := false |}.

Lemma serialize_three (major minor patch : VersionPart.t) :
  serialize (three major minor patch)
  = (three major minor patch,
     Return (VersionPart.value major +:+ "." +:+ VersionPart.value minor
             +:+ "." +:+ VersionPart.value patch)).
Proof.
  apply (serialize_one_format _ "{major}.{minor}.{patch}");
    [reflexivity | reflexivity |].
  unfold str_format.
  change (Formatter.parse "{major}.{minor}.{patch}")
    with (Yield (EmptyString, Some (named "major"))
            (Yield (".", Some (named "minor"))
               (Yield (".", Some (named "patch")) Stop)) : gen Formatter.item).
  cbn [format_items].
  rewrite !output_markup_bare by reflexivity.
  cbn [Formatter.field_name]. rewrite !merged_values_lookup.
  cbn [_parsed rev app odict.get String.eqb Ascii.eqb Bool.eqb format
       VersionPart.__format__].
  now rewrite !append_nil, !append_assoc.
Qed.

Lemma bump_three (part_name : string) (major minor patch : VersionPart.t) :
  bump part_name (three major minor patch) =
  match
    for_list [Some "major"; Some "minor"; Some "patch"] (bump_round part_name)
      false (three major minor patch)
  with
  | (self, Return _) => (self, Return tt)
  | (self, Raise e) => (self, Raise e)
  end.
Proof.
  unfold bump, bind at 1. rewrite (order_spec _ "{major}.{minor}.{patch}" []);
    [| reflexivity].
  change (_labels_for_format "{major}.{minor}.{patch}")
    with (gen_list [Some "major"; Some "minor"; Some "patch"]).
  unfold bind. rewrite for_gen_list.
  now destruct (for_list _ _ _ _) as [self [b|e]].
Qed.

Local Abbreviation zero := {| VersionPart._value := Some "0" |}.

Lemma bump_major (major major' minor patch : VersionPart.t) :
  VersionPart.bump major = Return major' ->
  bump "major" (three major minor patch) = (three major' zero zero, Return tt).
Proof.
  intros Hb. rewrite bump_three. cbn [for_list]. unfold bind.
  rewrite (bump_round_target "major" false (three major minor patch)
             major major' eq_refl Hb).
  change (set_parsed _ (three major minor patch)) with (three major' minor patch).
  rewrite (bump_round_zero "major" "minor" _ minor); [| discriminate | reflexivity].
  change (set_parsed _ (three major' minor patch)) with (three major' zero patch).
  rewrite (bump_round_zero "major" "patch" _ patch); [| discriminate | reflexivity].
  reflexivity.
Qed.

Lemma bump_minor (major minor minor' patch : VersionPart.t) :
  VersionPart.bump minor = Return minor' ->
  bump "minor" (three major minor patch) = (three major minor' zero, Return tt).
Proof.
  intros Hb. rewrite bump_three. cbn [for_list]. unfold bind.
  rewrite (bump_round_skip "minor" (Some "major") false);
    [| right; split; [discriminate | reflexivity]].
  rewrite (bump_round_target "minor" false (three major minor patch)
             minor minor' eq_refl Hb).
  change (set_parsed _ (three major minor patch)) with (three major minor' patch).
  rewrite (bump_round_zero "minor" "patch" _ patch); [| discriminate | reflexivity].
  reflexivity.
Qed.

Lemma bump_patch (major minor patch patch' : VersionPart.t) :
  VersionPart.bump patch = Return patch' ->
  bump "patch" (three major minor patch) = (three major minor patch', Return tt).
Proof.
  intros Hb. rewrite bump_three. cbn [for_list]. unfold bind.
  rewrite (bump_round_skip "patch" (Some "major") false);
    [| right; split; [discriminate | reflexivity]].
  rewrite (bump_round_skip "patch" (Some "minor") false);
    [| right; split; [discriminate | reflexivity]].
  rewrite (bump_round_target "patch" false (three major minor patch)
             patch patch' eq_refl Hb).
  reflexivity.
Qed.

Lemma value_numeral (s : string) :
  Numeral.numeral s = true ->
  VersionPart.value {| VersionPart._value := Some s |} = s.
Proof.
  intros H. apply numeral_spec in H as [Hne _].
  unfold VersionPart.value. cbn [VersionPart._value]. now rewrite Hne.
Qed.

(** X14.  With the default pattern and the default format, a version of three
    numerals between dots is bumped as a semantic version: the part named
    becomes the numeral of its successor, the parts after it become "0", the
    parts before it keep their text, whatever the context holds. *)
Theorem default_bump (major minor patch : string) :
  Numeral.numeral major = true ->
  Numeral.numeral minor = true ->
  Numeral.numeral patch = true ->
  let self := Examples.new Examples.default_parse default ctx in
  let version := major +:+ "." +:+ minor +:+ "." +:+ patch in
  Examples.parse_bump_serialize self version "major"
  = Return (Text.str (Text.int major + 1) +:+ ".0.0")
  /\ Examples.parse_bump_serialize self version "minor"
     = Return (major +:+ "." +:+ Text.str (Text.int minor + 1) +:+ ".0")
  /\ Examples.parse_bump_serialize self version "patch"
     = Return (major +:+ "." +:+ minor +:+ "."
               +:+ Text.str (Text.int patch + 1)).
Proof.
  intros Ha Hb Hc self version. unfold Examples.parse_bump_serialize, bind.
  subst self version. rewrite (parse_default _ _ _ Ha Hb Hc).
  assert (forall n : N,
            VersionPart.value {| VersionPart._value := Some (Text.str n) |}
            = Text.str n) as Hstr.
  { intros n. apply value_numeral. unfold Numeral.numeral.
    destruct (str_digits n) as [-> ->]. reflexivity. }
  split; [| split].
  - rewrite (bump_major _ _ _ _ (bump_numeral _ Ha)), serialize_three.
    cbn [snd]. now rewrite Hstr.
  - rewrite (bump_minor _ _ _ _ (bump_numeral _ Hb)), serialize_three.
    cbn [snd]. now rewrite Hstr, (value_numeral _ Ha).
  - rewrite (bump_patch _ _ _ _ (bump_numeral _ Hc)), serialize_three.
    cbn [snd]. now rewrite Hstr, (value_numeral _ Ha), (value_numeral _ Hb).
Qed.

End Defaults.

(** "1.4.9" in an empty context. *)
Lemma default_bump_witness :
  Examples.parse_bump_serialize
    (Examples.new Examples.default_parse ["{major}.{minor}.{patch}"] ∅)
    "1.4.9" "major" = Return "2.0.0"
  /\ Examples.parse_bump_serialize
       (Examples.new Examples.default_parse ["{major}.{minor}.{patch}"] ∅)
       "1.4.9" "minor" = Return "1.5.0"
  /\ Examples.parse_bump_serialize
       (Examples.new Examples.default_parse ["{major}.{minor}.{patch}"] ∅)
       "1.4.9" "patch" = Return "1.4.10".
Proof.
  exact (default_bump ∅ "1" "4" "9" eq_refl eq_refl eq_refl).
Defined.

(** ** bump and serialize at their edges *)

Section Edges.
Import Version.

Lemma bump_loop_failure (part_name : string) (self : t) (p : VersionPart.t)
    (e : exn) :
  odict.get (_parsed self) part_name = Some p ->
  VersionPart.bump p = Raise e ->
  forall labels : gen label,
    Some part_name ∈ yielded labels ->
    for_gen labels (bump_round part_name) false self = (self, Raise e).
Proof.
  intros Hget Hb. induction labels as [| a labels IH | e']; cbn [yielded];
    intros Hin.
  - now apply elem_of_nil in Hin.
  - cbn [for_gen]. unfold bind.
    destruct (decide (a = Some part_name)) as [-> | Hne].
    + now rewrite (bump_round_target_raise part_name false self p e Hget Hb).
    + rewrite bump_round_skip.
      * apply IH. apply elem_of_cons in Hin as [Heq | Hin]; congruence.
      * destruct a as [name|]; [| exact I]. right. split; congruence.
  - now apply elem_of_nil in Hin.
Qed.

(** X11.  A [bump] that fails changes nothing: when the part named is a field of
    the first format and its own [bump] raises, the exception leaves
    [Version.bump] and every part is as it was, the parts after it too. *)
Theorem bump_failure_leaves_object (part_name : string) (self : t)
    (first : string) (rest : list string) (p : VersionPart.t) (e : exn) :
  serialize_formats self = first :: rest ->
  Some part_name ∈ yielded (_labels_for_format first) ->
  odict.get (_parsed self) part_name = Some p ->
  VersionPart.bump p = Raise e ->
  bump part_name self = (self, Raise e).
Proof.
  intros Hf Hin Hget Hb. unfold bump, bind at 1.
  rewrite (order_spec self first rest Hf). unfold bind.
  now rewrite (bump_loop_failure part_name self p e Hget Hb _ Hin).
Qed.

(** "1.4.9-beta": the part [label] holds no digit. *)
Lemma bump_failure_leaves_object_witness :
  bump "label"
    (Examples.parsed
       (Examples.new Examples.with_label ["{major}.{minor}.{patch}-{label}"] ∅)
       "1.4.9-beta")
  = (Examples.parsed
       (Examples.new Examples.with_label ["{major}.{minor}.{patch}-{label}"] ∅)
       "1.4.9-beta",
     Raise AttributeError).
Proof.
  apply (bump_failure_leaves_object "label" _
           "{major}.{minor}.{patch}-{label}" []
           {| VersionPart._value := Some "beta" |}).
  - reflexivity.
  - apply (bool_decide_unpack _). vm_compute. exact I.
  - vm_compute. reflexivity.
  - vm_compute. reflexivity.
Defined.

(** X12.  Without any format, [bump] fails with the [IndexError] of
    [serialize_formats[0]] and [serialize] with the [KeyError] "Did not find
    suitable serialization format"; both leave the object as it was. *)
Theorem no_serialize_formats (part_name : string) (self : t) :
  serialize_formats self = [] ->
  bump part_name self = (self, Raise IndexError)
  /\ serialize self = (self, Raise KeyError_no_suitable_format).
Proof.
  intros Hf. split.
  - unfold bump, bind, order, bind, get_self. now rewrite Hf.
  - unfold serialize, bind, _choose_serialize_format, bind, get_self.
    now rewrite Hf.
Qed.

(** The default pattern and no format. *)
Lemma no_serialize_formats_witness :
  bump "major" (Examples.new Examples.default_parse [] ∅)
  = (Examples.new Examples.default_parse [] ∅, Raise IndexError)
  /\ serialize (Examples.new Examples.default_parse [] ∅)
     = (Examples.new Examples.default_parse [] ∅,
        Raise KeyError_no_suitable_format).
Proof.
  exact (no_serialize_formats "major"
           (Examples.new Examples.default_parse [] ∅) eq_refl).
Defined.

End Edges.
